(** * HeightMap: the position index of the virtualised tree view

    A shallow embedding of [src/vs/base/parts/tree/browser/treeViewModel.ts]
    and the properties of its height/index engine.

    Conventions of the embedding.
    - JavaScript numbers that hold pixel offsets and heights are integers
      ([Z]); slot numbers are naturals ([nat]).
    - The array [heightMap] is a [list IViewItem]; the object [indexes],
      used as a dictionary from item id to slot, is a [gmap string nat].
      A read of a key that only [Object.prototype] has behaves like a read
      of an absent key in every use the source makes of it; the one id a
      plain object cannot store, ["__proto__"], is excluded by hypothesis
      ([unstorable]) where a statement reads the index entry of an
      inserted item.
    - An [IIterator] is the list of the values its [next()] still has to
      yield; [next()] answers [null] once the list is exhausted.  The loops
      of the source stop on any falsy value, so a scan over strings also
      stops on the empty string.
    - The hooks [onInsertItem], [onRemoveItem], [onRefreshItem] and the
      event ['viewItem:create'] are recorded in a trace; [console.error]
      is recorded in a separate log.  A row handed to a hook is recorded
      as it is at the time of the call. *)

From Stdlib Require Import ZArith Lia Sorted.
From stdpp Require Import base list gmap strings sorting.

(** ** Data model *)

(** The part of [Item] (treeModel.ts) this file uses: [item.id] and
    [item.getHeight()]. *)
Record Item := { id : string; getHeight : Z }.

Record IViewItem := { model : Item; top : Z; height : Z }.

Record HeightMap := {
  heightMap : list IViewItem;
  indexes : gmap string nat
}.

(** [constructor()] *)
Definition create : HeightMap := {| heightMap := []; indexes := ∅ |}.

Inductive Event :=
| ViewItemCreate (item : Item)
| OnInsertItem (viewItem : IViewItem)
| OnRemoveItem (viewItem : IViewItem)
| OnRefreshItem (viewItem : IViewItem) (needsRender : bool).

(** How a call ends: it returns, or an access to a property of
    [undefined] throws. *)
Inductive Completion := Returns | TypeError.

(** What a mutating call leaves behind: the object after the call, the
    returned value, the notifications in the order they were emitted, the
    lines written by [console.error], and what the iterator has not
    yielded. *)
Record Run (R I : Type) := {
  final : HeightMap;
  value : R;
  trace : list Event;
  console : list string;
  unread : list I
}.
Arguments final {R I} _.
Arguments value {R I} _.
Arguments trace {R I} _.
Arguments console {R I} _.
Arguments unread {R I} _.

Definition doesnt_exist : string := "view item doesnt exist".

(** [viewItem.top = t] and [viewItem.top += d] *)
Definition set_top (viewItem : IViewItem) (t : Z) : IViewItem :=
  {| model := model viewItem; top := t; height := height viewItem |}.

Definition shift (d : Z) (viewItem : IViewItem) : IViewItem :=
  set_top viewItem (top viewItem + d).

(** Modelled from the spec: [createViewItem] is abstract in this class (its
    body throws 'not implemented'; the subclass that overrides it is not in
    the source).  The spec has insert create "a row record per item" whose
    extent is the item's height; the offset is assigned by the caller. *)
Definition createViewItem (item : Item) : IViewItem :=
  {| model := item; top := 0; height := getHeight item |}.

(** ** getTotalHeight *)

Definition getTotalHeight (m : HeightMap) : Z :=
  match last (heightMap m) with
  | None => 0
  | Some viewItem => top viewItem + height viewItem
  end.

(** ** onInsertItems *)

(** The state of the scan [while (item = iterator.next())] when it ends. *)
Record InsertScan := {
  itemsToInsert : list IViewItem;
  ins_i : nat;
  ins_sizeDiff : Z;
  ins_indexes : gmap string nat;
  ins_trace : list Event
}.

Fixpoint insertScan (iterator : list Item) (totalSize : Z) (i : nat)
    (sizeDiff : Z) (idx : gmap string nat) : InsertScan :=
  match iterator with
  | [] =>
      {| itemsToInsert := []; ins_i := i; ins_sizeDiff := sizeDiff;
         ins_indexes := idx; ins_trace := [] |}
  | item :: iterator' =>
      let viewItem := set_top (createViewItem item) (totalSize + sizeDiff) in
      let r := insertScan iterator' totalSize (S i)
                 (sizeDiff + height viewItem) (<[id item := i]> idx) in
      {| itemsToInsert := viewItem :: itemsToInsert r;
         ins_i := ins_i r;
         ins_sizeDiff := ins_sizeDiff r;
         ins_indexes := ins_indexes r;
         ins_trace := ViewItemCreate (model viewItem) :: ins_trace r |}
  end.

(** [for (j = i; j < this.heightMap.length; j++)]: [rows] are the rows from
    slot [j] on. *)
Fixpoint shiftSuffix (j : nat) (rows : list IViewItem) (sizeDiff : Z)
    (idx : gmap string nat) : list IViewItem * gmap string nat :=
  match rows with
  | [] => ([], idx)
  | viewItem :: rows' =>
      let viewItem' := shift sizeDiff viewItem in
      let r := shiftSuffix (S j) rows' sizeDiff
                 (<[id (model viewItem') := j]> idx) in
      (viewItem' :: r.1, r.2)
  end.

(** Where the insertion starts: the slot [i] and the offset [totalSize],
    or nothing when [heightMap[i - 1]] is undefined. *)
Definition insertionPoint (afterItemId : option string) (m : HeightMap)
    : option (nat * Z) :=
  match afterItemId with
  | None => Some (0%nat, 0%Z)
  | Some a =>
      match indexes m !! a with
      | None => None
      | Some slot =>
          match heightMap m !! slot with
          | None => None
          | Some viewItem => Some (S slot, (top viewItem + height viewItem)%Z)
          end
      end
  end.

Definition onInsertItems (iterator : list Item) (afterItemId : option string)
    (m : HeightMap) : Run (option Z) Item :=
  match insertionPoint afterItemId m with
  | None =>
      {| final := m; value := None; trace := [];
         console := [doesnt_exist]; unread := iterator |}
  | Some (i0, totalSize) =>
      let scan := insertScan iterator totalSize i0 0 (indexes m) in
      let i := ins_i scan in
      let spliced :=
        take i0 (heightMap m) ++ itemsToInsert scan ++ drop i0 (heightMap m) in
      let shifted :=
        shiftSuffix i (drop i spliced) (ins_sizeDiff scan) (ins_indexes scan) in
      let rows := take i spliced ++ shifted.1 in
      {| final := {| heightMap := rows; indexes := shifted.2 |};
         value := Some (ins_sizeDiff scan);
         trace := ins_trace scan
                  ++ (OnInsertItem <$> reverse (itemsToInsert scan))
                  ++ ((λ v, OnRefreshItem v false) <$> reverse (drop i rows));
         console := [];
         unread := [] |}
  end.

(** ** onRemoveItems *)

Record RemoveScan := {
  rm_aborted : bool;
  rm_indexes : gmap string nat;
  rm_sizeDiff : Z;
  rm_startIndex : option nat;
  rm_i : option nat;
  rm_trace : list Event;
  rm_unread : list string
}.

Fixpoint removeScan (iterator : list string) (rows : list IViewItem)
    (idx : gmap string nat) (sizeDiff : Z) (startIndex i : option nat)
    : RemoveScan :=
  match iterator with
  | [] =>
      {| rm_aborted := false; rm_indexes := idx; rm_sizeDiff := sizeDiff;
         rm_startIndex := startIndex; rm_i := i; rm_trace := [];
         rm_unread := [] |}
  | itemId :: iterator' =>
      if decide (itemId = "") then
        {| rm_aborted := false; rm_indexes := idx; rm_sizeDiff := sizeDiff;
           rm_startIndex := startIndex; rm_i := i; rm_trace := [];
           rm_unread := iterator' |}
      else
        match idx !! itemId ≫= λ slot, pair slot <$> rows !! slot with
        | None =>
            {| rm_aborted := true; rm_indexes := idx; rm_sizeDiff := sizeDiff;
               rm_startIndex := startIndex; rm_i := idx !! itemId;
               rm_trace := []; rm_unread := iterator' |}
        | Some (slot, viewItem) =>
            let r := removeScan iterator' rows (delete itemId idx)
                       (sizeDiff - height viewItem)
                       (match startIndex with
                        | None => Some slot
                        | Some _ => startIndex
                        end)
                       (Some slot) in
            {| rm_aborted := rm_aborted r; rm_indexes := rm_indexes r;
               rm_sizeDiff := rm_sizeDiff r; rm_startIndex := rm_startIndex r;
               rm_i := rm_i r; rm_trace := OnRemoveItem viewItem :: rm_trace r;
               rm_unread := rm_unread r |}
        end
  end.

(** [for (i = startIndex; i < this.heightMap.length; i++)]: [rows] are the
    rows from slot [i] on. *)
Fixpoint shiftSuffixRefresh (i : nat) (rows : list IViewItem) (sizeDiff : Z)
    (idx : gmap string nat) : list IViewItem * gmap string nat * list Event :=
  match rows with
  | [] => ([], idx, [])
  | viewItem :: rows' =>
      let viewItem' := shift sizeDiff viewItem in
      let r := shiftSuffixRefresh (S i) rows' sizeDiff
                 (<[id (model viewItem') := i]> idx) in
      (viewItem' :: r.1.1, r.1.2, OnRefreshItem viewItem' false :: r.2)
  end.

(** [array.splice(start, deleteCount)]; a negative [deleteCount] removes
    nothing. *)
Definition splice (start : nat) (deleteCount : Z) (rows : list IViewItem)
    : list IViewItem :=
  take start rows ++ drop (start + Z.to_nat deleteCount) rows.

Definition onRemoveItems (iterator : list string) (m : HeightMap)
    : Run unit string :=
  let scan := removeScan iterator (heightMap m) (indexes m) 0 None None in
  let untouched (log : list string) :=
    {| final := {| heightMap := heightMap m; indexes := rm_indexes scan |};
       value := tt; trace := rm_trace scan; console := log;
       unread := rm_unread scan |} in
  if rm_aborted scan then untouched [doesnt_exist]
  else if decide (rm_sizeDiff scan = 0%Z) then untouched []
  else
    match rm_startIndex scan, rm_i scan with
    | Some startIndex, Some i =>
        let spliced :=
          splice startIndex (Z.of_nat i - Z.of_nat startIndex + 1)
            (heightMap m) in
        let r := shiftSuffixRefresh startIndex (drop startIndex spliced)
                   (rm_sizeDiff scan) (rm_indexes scan) in
        {| final := {| heightMap := take startIndex spliced ++ r.1.1;
                       indexes := r.1.2 |};
           value := tt; trace := rm_trace scan ++ r.2; console := [];
           unread := rm_unread scan |}
    | _, _ => untouched []   (* no iteration ran: [sizeDiff] is still 0 *)
    end.

(** ** onRefreshItems *)

Definition set_row (viewItem : IViewItem) (t h : Z) : IViewItem :=
  {| model := model viewItem; top := t; height := h |}.

(** The two loops [for (; ... j < bound; j++)] that add [cummDiff] to the
    offset of the rows in slots [j .. bound - 1]; [n] is [bound - j]. *)
Fixpoint shiftRange (n j : nat) (cummDiff : Z) (rows : list IViewItem)
    : Completion * list IViewItem * list Event :=
  match n with
  | O => (Returns, rows, [])
  | S n' =>
      match rows !! j with
      | None => (TypeError, rows, [])
      | Some viewItem =>
          let viewItem' := shift cummDiff viewItem in
          let r := shiftRange n' (S j) cummDiff (<[j := viewItem']> rows) in
          (r.1.1, r.1.2, OnRefreshItem viewItem' false :: r.2)
      end
  end.

(** The guard [cummDiff !== 0 && j !== null] of those loops. *)
Definition shiftPending (bound : nat) (j : option nat) (cummDiff : Z)
    (rows : list IViewItem) : Completion * list IViewItem * list Event :=
  match j with
  | Some j' =>
      if decide (cummDiff = 0%Z) then (Returns, rows, [])
      else shiftRange (bound - j') j' cummDiff rows
  | None => (Returns, rows, [])
  end.

Record RefreshScan := {
  rf_completion : Completion;
  rf_rows : list IViewItem;
  rf_cummDiff : Z;
  rf_j : option nat;
  rf_trace : list Event;
  rf_unread : list Item
}.

Fixpoint refreshScan (iterator : list Item) (idx : gmap string nat)
    (rows : list IViewItem) (cummDiff : Z) (j : option nat) : RefreshScan :=
  match iterator with
  | [] =>
      {| rf_completion := Returns; rf_rows := rows; rf_cummDiff := cummDiff;
         rf_j := j; rf_trace := []; rf_unread := [] |}
  | item :: iterator' =>
      match idx !! id item with
      | None =>
          (* [j < undefined] is false, [heightMap[undefined].top] throws *)
          {| rf_completion := TypeError; rf_rows := rows;
             rf_cummDiff := cummDiff; rf_j := j; rf_trace := [];
             rf_unread := iterator' |}
      | Some i =>
          let caught := shiftPending i j cummDiff rows in
          match caught.1.1, caught.1.2 !! i with
          | Returns, Some viewItem =>
              let newHeight := getHeight item in
              let viewItem' :=
                set_row viewItem (top viewItem + cummDiff) newHeight in
              let r := refreshScan iterator' idx
                         (<[i := viewItem']> caught.1.2)
                         (cummDiff + (newHeight - height viewItem))
                         (Some (S i)) in
              {| rf_completion := rf_completion r; rf_rows := rf_rows r;
                 rf_cummDiff := rf_cummDiff r; rf_j := rf_j r;
                 rf_trace := caught.2 ++ OnRefreshItem viewItem' true
                             :: rf_trace r;
                 rf_unread := rf_unread r |}
          | _, _ =>
              {| rf_completion := TypeError; rf_rows := caught.1.2;
                 rf_cummDiff := cummDiff; rf_j := j; rf_trace := caught.2;
                 rf_unread := iterator' |}
          end
      end
  end.

Definition onRefreshItems (iterator : list Item) (m : HeightMap)
    : Run Completion Item :=
  let scan := refreshScan iterator (indexes m) (heightMap m) 0 None in
  match rf_completion scan with
  | TypeError =>
      {| final := {| heightMap := rf_rows scan; indexes := indexes m |};
         value := TypeError; trace := rf_trace scan; console := [];
         unread := rf_unread scan |}
  | Returns =>
      let r := shiftPending (length (rf_rows scan)) (rf_j scan)
                 (rf_cummDiff scan) (rf_rows scan) in
      {| final := {| heightMap := r.1.2; indexes := indexes m |};
         value := r.1.1; trace := rf_trace scan ++ r.2; console := [];
         unread := rf_unread scan |}
  end.

(** ** Queries *)

Definition itemsCount (m : HeightMap) : nat := length (heightMap m).

(** What a query answers: a value, a thrown [TypeError], or nothing
    within the allotted number of loop iterations. *)
Inductive Answer (A : Type) := Value (a : A) | Throws | Unfinished.
Arguments Value {A} a.
Arguments Throws {A}.
Arguments Unfinished {A}.

(** The loop [while (left < right)] of [indexAt], with a bound on the
    number of iterations. *)
Fixpoint indexAtLoop (fuel : nat) (rows : list IViewItem) (position : Z)
    (left right : nat) : Answer nat :=
  if decide (left < right) then
    match fuel with
    | O => Unfinished
    | S fuel' =>
        let center := (left + right) / 2 in
        match rows !! center with
        | None => Throws
        | Some item =>
            if decide (position < top item)%Z then
              indexAtLoop fuel' rows position left center
            else if decide (position >= top item + height item)%Z then
              if decide (left = center) then Value (length rows)
              else indexAtLoop fuel' rows position center right
            else Value center
        end
    end
  else Value (length rows).

Definition indexAt (position : Z) (m : HeightMap) : Answer nat :=
  indexAtLoop (length (heightMap m)) (heightMap m) position 0
    (length (heightMap m)).

Definition indexAfter (position : Z) (m : HeightMap) : Answer nat :=
  match indexAt position m with
  | Value slot => Value (Nat.min (slot + 1) (length (heightMap m)))
  | Throws => Throws
  | Unfinished => Unfinished
  end.

Definition itemAt (position : Z) (m : HeightMap) : Answer string :=
  match indexAt position m with
  | Value slot =>
      match heightMap m !! slot with
      | Some viewItem => Value (id (model viewItem))
      | None => Throws
      end
  | Throws => Throws
  | Unfinished => Unfinished
  end.

Definition itemAtIndex (index : nat) (m : HeightMap) : option IViewItem :=
  heightMap m !! index.

(** [this.heightMap[this.indexes[item.model.id] + 1] || null] *)
Definition itemAfter (item : IViewItem) (m : HeightMap) : option IViewItem :=
  indexes m !! id (model item) ≫= λ slot, heightMap m !! S slot.

(** The loop [for (let i = start; i <= end; i++)] of [withItemsInRange]
    from slot [i] on, [n] slots to go: how it ends and the ids [fn] was
    called with, in call order.  Reading [.model] of a missing row
    throws. *)
Fixpoint visitSlots (n i : nat) (rows : list IViewItem)
    : Completion * list string :=
  match n with
  | O => (Returns, [])
  | S n' =>
      match rows !! i with
      | None => (TypeError, [])
      | Some viewItem =>
          let r := visitSlots n' (S i) rows in
          (r.1, id (model viewItem) :: r.2)
      end
  end.

(** [withItemsInRange(start, end, fn)], for a callback that returns
    normally and leaves the map alone. *)
Definition withItemsInRange (start end_ : Z) (m : HeightMap)
    : Answer unit * list string :=
  match indexAt start m, indexAt end_ m with
  | Value s, Value e =>
      let r := visitSlots (S e - s) s (heightMap m) in
      (match r.1 with Returns => Value tt | TypeError => Throws end, r.2)
  | Unfinished, _ | Value _, Unfinished => (Unfinished, [])
  | Throws, _ | Value _, Throws => (Throws, [])
  end.

(** ** onRefreshItemSet *)

(** [items.sort((a, b) => this.indexes[a.id] - this.indexes[b.id])] where
    every id is a key of the index ([slots] lists the slots, in the order
    of [items]): the comparator is then consistent and the outcome of
    [Array.prototype.sort] is the stable sort by slot, computed here by
    insertion. *)
Fixpoint insertBySlot (x : Item * nat) (sorted : list (Item * nat))
    : list (Item * nat) :=
  match sorted with
  | [] => [x]
  | y :: sorted' =>
      if decide (x.2 ≤ y.2) then x :: y :: sorted'
      else y :: insertBySlot x sorted'
  end.

Fixpoint sortBySlot (items : list (Item * nat)) : list (Item * nat) :=
  match items with
  | [] => []
  | x :: items' => insertBySlot x (sortBySlot items')
  end.

(** Each item with its slot, or nothing when some id is no key of the
    index. *)
Definition withSlots (items : list Item) (m : HeightMap)
    : option (list (Item * nat)) :=
  mapM (λ it, pair it <$> indexes m !! id it) items.

(** [onRefreshItemSet(items)].  Where an id is no key of the index the
    comparator yields [NaN] and the order the sort leaves is up to the
    engine: the model gives no result there. *)
Definition onRefreshItemSet (items : list Item) (m : HeightMap)
    : option (Run Completion Item) :=
  (λ pairs, onRefreshItems (sortBySlot pairs).*1 m) <$> withSlots items m.

(** ** The state of Scenario A of the specification *)

Definition item (name : string) (h : Z) : Item :=
  {| id := name; getHeight := h |}.

Definition scenarioA : HeightMap :=
  final (onInsertItems [item "a" 10; item "b" 20; item "c" 30] None create).

(** * Invariants *)

(** I1, as the specification words it: the first row starts at 0 and
    every row starts where the previous one ends. *)
Definition contiguous (rows : list IViewItem) : Prop :=
  (∀ v, rows !! 0 = Some v → top v = 0%Z)
  ∧ (∀ k v w, rows !! k = Some v → rows !! S k = Some w →
       top w = (top v + height v)%Z).

Definition nonnegative (rows : list IViewItem) : Prop :=
  ∀ k v, rows !! k = Some v → (0 ≤ height v)%Z.

(** The position [p] lies in the half-open window of the row. *)
Definition covers (v : IViewItem) (p : Z) : Prop :=
  (top v ≤ p < top v + height v)%Z.

(** The same layout, by recursion: the rows are stacked from [t] on. *)
Fixpoint stacked (t : Z) (rows : list IViewItem) : Prop :=
  match rows with
  | [] => True
  | v :: rows' => top v = t ∧ stacked (t + height v) rows'
  end.

Fixpoint extent (rows : list IViewItem) : Z :=
  match rows with
  | [] => 0
  | v :: rows' => height v + extent rows'
  end.

(** No row starts before an earlier row ends. *)
Definition ascending (rows : list IViewItem) : Prop :=
  ∀ k k' v v', k < k' → rows !! k = Some v → rows !! k' = Some v' →
    (top v + height v ≤ top v')%Z.

(** * Vocabulary of the proofs *)

(** ** Notifications and the scan of a removal *)

(** The rows the [onRefreshItem] hook was called with, in call order. *)
Definition refreshedRows (tr : list Event) : list IViewItem :=
  omap (λ e, match e with OnRefreshItem v _ => Some v | _ => None end) tr.

(** The scan finds the identity: it is a non-empty string, the index
    sends it to a slot, and the slot holds a row. *)
Definition picks (rows : list IViewItem) (idx : gmap string nat)
    (itemId : string) (sv : nat * IViewItem) : Prop :=
  itemId ≠ "" ∧ idx !! itemId = Some sv.1 ∧ rows !! sv.1 = Some sv.2.

Definition rm_emit (evs : list Event) (r : RemoveScan) : RemoveScan :=
  {| rm_aborted := rm_aborted r; rm_indexes := rm_indexes r;
     rm_sizeDiff := rm_sizeDiff r; rm_startIndex := rm_startIndex r;
     rm_i := rm_i r; rm_trace := evs ++ rm_trace r;
     rm_unread := rm_unread r |}.

Definition firstOf (startIndex : option nat) (slots : list nat) : option nat :=
  match startIndex with
  | Some _ => startIndex
  | None => head slots
  end.

Definition lastOf (i : option nat) (slots : list nat) : option nat :=
  match last slots with
  | Some slot => Some slot
  | None => i
  end.

(** ** The refresh loop *)

(** The layout the refresh loop is heading for: the rows before the
    cursor [j] are in place, the rows from [j] on still have to move by
    [cummDiff]. *)
Definition pending (rows : list IViewItem) (cummDiff : Z) (j : option nat)
    : list IViewItem :=
  match j with
  | Some j' => take j' rows ++ (shift cummDiff <$> drop j' rows)
  | None => rows
  end.

Definition cursor (j : option nat) : nat := default 0 j.

(** ** The operations and the states they reach *)

Inductive Operation :=
| Insert (items : list Item) (afterItemId : option string)
| Remove (ids : list string)
| Refresh (items : list Item).

Definition perform (op : Operation) (m : HeightMap) : HeightMap :=
  match op with
  | Insert items afterItemId => final (onInsertItems items afterItemId m)
  | Remove ids => final (onRemoveItems ids m)
  | Refresh items => final (onRefreshItems items m)
  end.

(** The identities are keys of the index and their slots are consecutive,
    in input order. *)
Definition contiguousRun (ids : list string) (m : HeightMap) : Prop :=
  ∃ s0, ∀ k itemId, ids !! k = Some itemId →
    indexes m !! itemId = Some (s0 + k).

(** The items are keys of the index and come in strictly ascending slot
    order. *)
Definition ascendingSlots (items : list Item) (m : HeightMap) : Prop :=
  ∃ slots, Forall2 (λ it s, indexes m !! id it = Some s) items slots
           ∧ StronglySorted lt slots.

(** What the callers owe: the anchor of an insert is none or a key of the
    index; a remove is given a contiguous run; a refresh is given present
    items in ascending slot order. *)
Definition permitted (op : Operation) (m : HeightMap) : Prop :=
  match op with
  | Insert _ None => True
  | Insert _ (Some a) => is_Some (indexes m !! a)
  | Remove ids => contiguousRun ids m
  | Refresh items => ascendingSlots items m
  end.

Inductive reachable : HeightMap → Prop :=
| reachable_create : reachable create
| reachable_perform op m :
    reachable m → permitted op m → reachable (perform op m).

(** Every entry of the index points at a row with that identity. *)
Definition indexed (m : HeightMap) : Prop :=
  ∀ x s, indexes m !! x = Some s →
    ∃ v, heightMap m !! s = Some v ∧ id (model v) = x.

(** ** Index consistency *)

(** I2: every row is indexed at its slot, and every entry of the index
    points at a row with that identity. *)
Definition consistent (m : HeightMap) : Prop :=
  (∀ k v, heightMap m !! k = Some v → indexes m !! id (model v) = Some k)
  ∧ indexed m.

(** Three rows, the middle one of height 0. *)
Definition withZeroRow : HeightMap :=
  final (onInsertItems [item "a" 10; item "z" 0; item "b" 20] None create).

(** No two rows carry the same identity. *)
Definition distinctIds (rows : list IViewItem) : Prop :=
  ∀ k k' v v', rows !! k = Some v → rows !! k' = Some v' →
    id (model v) = id (model v') → k = k'.

(** ** Disciplined use *)

(** The one id the index cannot hold: on the plain object [indexes] the
    assignment [this.indexes["__proto__"] = i] stores nothing. *)
Definition unstorable : string := "__proto__".

(** A caller that keeps identities unique: it inserts items whose ids are
    pairwise distinct, storable and no keys of the index, after no anchor
    or a key; it removes a run of non-empty keys at consecutive slots,
    none at all or rows whose heights do not sum to 0; it refreshes keys
    in strictly ascending slot order. *)
Definition disciplined (op : Operation) (m : HeightMap) : Prop :=
  match op with
  | Insert items afterItemId =>
      NoDup (id <$> items)
      ∧ Forall (λ it, id it ≠ unstorable ∧ indexes m !! id it = None) items
      ∧ permitted (Insert items afterItemId) m
  | Remove ids =>
      ∃ s0, (∀ k x, ids !! k = Some x →
               x ≠ "" ∧ indexes m !! x = Some (s0 + k))
            ∧ (ids = []
               ∨ extent (take (length ids) (drop s0 (heightMap m))) ≠ 0%Z)
  | Refresh items => ascendingSlots items m
  end.

(** The heights an operation brings in are not negative. *)
Definition nonnegativeHeights (op : Operation) : Prop :=
  match op with
  | Insert items _ | Refresh items => Forall (λ it, (0 ≤ getHeight it)%Z) items
  | Remove _ => True
  end.

(** The states reached from the empty map by permitted operations that
    bring in no negative height. *)
Inductive reachableNonnegative : HeightMap → Prop :=
| reachableNonnegative_create : reachableNonnegative create
| reachableNonnegative_perform op m :
    reachableNonnegative m → permitted op m → nonnegativeHeights op →
    reachableNonnegative (perform op m).

(** * Layout of the rows *)

Section Layout.
Implicit Types (rows : list IViewItem) (v : IViewItem) (t p d : Z).

Lemma stacked_lookup rows : ∀ t k v,
  stacked t rows → rows !! k = Some v → top v = (t + extent (take k rows))%Z.
Proof.
  induction rows as [|a rows IH]; intros t k v Hs Hk; [done|].
  destruct Hs as [Ha Hs]. destruct k as [|k]; simpl in *.
  - injection Hk as ->. lia.
  - rewrite (IH _ _ _ Hs Hk). lia.
Qed.

Lemma stacked_step rows t k v w :
  stacked t rows → rows !! k = Some v → rows !! S k = Some w →
  top w = (top v + height v)%Z.
Proof.
  revert t k. induction rows as [|a rows IH]; intros t k Hs Hv Hw; [done|].
  destruct Hs as [Ha Hs]. destruct k as [|k]; simpl in *.
  - injection Hv as ->. destruct rows as [|b rows]; [done|].
    simpl in Hw. injection Hw as ->. destruct Hs as [Hw _]. lia.
  - eauto.
Qed.

Lemma contiguous_stacked rows : contiguous rows ↔ stacked 0 rows.
Proof.
  split.
  - intros [H0 Hadj].
    assert (∀ t, (∀ v, rows !! 0 = Some v → top v = t) →
              (∀ k v w, rows !! k = Some v → rows !! S k = Some w →
                 top w = (top v + height v)%Z) → stacked t rows) as G.
    { clear. induction rows as [|a rows IH]; intros t Ht Hadj; [done|].
      simpl. split; [by apply Ht|]. apply IH.
      - intros v Hv. rewrite <- (Ht a eq_refl). by apply (Hadj 0 a v).
      - intros k v w Hv Hw. by apply (Hadj (S k) v w). }
    by apply G.
  - intros Hs. split.
    + intros v Hv. rewrite (stacked_lookup _ _ _ _ Hs Hv). simpl. lia.
    + intros k v w. apply (stacked_step _ _ _ _ _ Hs).
Qed.

Lemma extent_app rows1 rows2 :
  extent (rows1 ++ rows2) = (extent rows1 + extent rows2)%Z.
Proof. induction rows1 as [|a rows1 IH]; simpl; lia. Qed.

Lemma stacked_app rows1 rows2 t :
  stacked t (rows1 ++ rows2)
  ↔ stacked t rows1 ∧ stacked (t + extent rows1) rows2.
Proof.
  revert t. induction rows1 as [|a rows1 IH]; intros t; simpl.
  - rewrite Z.add_0_r. tauto.
  - rewrite IH. rewrite Z.add_assoc. tauto.
Qed.

Lemma extent_nonneg rows : nonnegative rows → (0 ≤ extent rows)%Z.
Proof.
  induction rows as [|a rows IH]; intros Hn; simpl; [lia|].
  pose proof (Hn 0 a eq_refl).
  assert (nonnegative rows) by (intros k v Hk; apply (Hn (S k) v Hk)).
  specialize (IH H0). lia.
Qed.

Lemma nonnegative_take rows n : nonnegative rows → nonnegative (take n rows).
Proof.
  intros Hn k v Hk. apply lookup_take_Some in Hk as [Hk _]. eauto.
Qed.

Lemma nonnegative_drop rows n : nonnegative rows → nonnegative (drop n rows).
Proof. intros Hn k v Hk. rewrite lookup_drop in Hk. eauto. Qed.

Lemma extent_take_S rows k v :
  rows !! k = Some v →
  extent (take (S k) rows) = (extent (take k rows) + height v)%Z.
Proof.
  intros Hk. rewrite (take_S_r _ _ _ Hk), extent_app. simpl. lia.
Qed.

Lemma extent_take_le rows k k' :
  nonnegative rows → k ≤ k' →
  (extent (take k rows) ≤ extent (take k' rows))%Z.
Proof.
  intros Hn Hle.
  replace (take k rows) with (take k (take k' rows))
    by (rewrite take_take; f_equal; lia).
  rewrite <- (take_drop k (take k' rows)) at 2. rewrite extent_app.
  pose proof (extent_nonneg (drop k (take k' rows))
                (nonnegative_drop _ _ (nonnegative_take _ _ Hn))). lia.
Qed.

Lemma stacked_ascending rows t :
  stacked t rows → nonnegative rows → ascending rows.
Proof.
  intros Hs Hn k k' v v' Hlt Hk Hk'.
  rewrite (stacked_lookup _ _ _ _ Hs Hk), (stacked_lookup _ _ _ _ Hs Hk').
  pose proof (extent_take_S _ _ _ Hk).
  pose proof (extent_take_le rows (S k) k' Hn ltac:(lia)). lia.
Qed.

Lemma getTotalHeight_stacked m t :
  stacked t (heightMap m) → heightMap m ≠ [] →
  getTotalHeight m = (t + extent (heightMap m))%Z.
Proof.
  unfold getTotalHeight. destruct m as [rows idx]; simpl. intros Hs Hne.
  destruct (last rows) as [v|] eqn:Hl.
  - rewrite last_lookup in Hl.
    rewrite (stacked_lookup _ _ _ _ Hs Hl).
    pose proof (extent_take_S _ _ _ Hl) as E.
    rewrite take_ge in E; [lia|]. destruct rows; [done|]. simpl; lia.
  - by apply last_None in Hl.
Qed.

(** Under I1 every position of [[t, t + extent)] is in some window. *)
Lemma stacked_covered rows : ∀ t p,
  stacked t rows → nonnegative rows → (t ≤ p < t + extent rows)%Z →
  ∃ k v, rows !! k = Some v ∧ covers v p.
Proof.
  induction rows as [|a rows IH]; intros t p Hs Hn Hp; simpl in *; [lia|].
  destruct Hs as [Ha Hs].
  destruct (decide (p < t + height a)%Z) as [Hlt|Hge].
  - exists 0, a. split; [done|]. unfold covers. lia.
  - destruct (IH (t + height a)%Z p Hs) as (k & v & Hk & Hc).
    + intros k v Hk. apply (Hn (S k) v Hk).
    + lia.
    + by exists (S k), v.
Qed.

Lemma ascending_covers_unique rows k k' v v' p :
  ascending rows → rows !! k = Some v → rows !! k' = Some v' →
  covers v p → covers v' p → k = k'.
Proof.
  unfold covers. intros Ha Hk Hk' Hc Hc'.
  destruct (Nat.lt_trichotomy k k') as [Hlt|[->|Hlt]]; [|done|].
  - pose proof (Ha _ _ _ _ Hlt Hk Hk'). lia.
  - pose proof (Ha _ _ _ _ Hlt Hk' Hk). lia.
Qed.
End Layout.

(** * Position queries *)

Section IndexAt.
Implicit Types (rows : list IViewItem) (p : Z).

Lemma center_bounds (l r : nat) : l < r → l ≤ (l + r) / 2 < r.
Proof.
  intros Hlt. pose proof (Nat.div_mod_eq (l + r) 2) as E.
  pose proof (Nat.mod_upper_bound (l + r) 2 ltac:(lia)). lia.
Qed.

Lemma center_left (l r : nat) : l = (l + r) / 2 → r ≤ l + 1.
Proof.
  intros Hc. pose proof (Nat.div_mod_eq (l + r) 2) as E.
  pose proof (Nat.mod_upper_bound (l + r) 2 ltac:(lia)). lia.
Qed.

(** The loop ends within [right - left] iterations and never reads a
    missing row; it answers a slot whose window holds the position, or
    the length, and then, when the rows are ascending, no row of
    [[left, right)] holds the position. *)
Lemma indexAtLoop_spec rows p : ∀ fuel l r,
  r ≤ length rows → r - l ≤ fuel →
  (∃ s v, indexAtLoop fuel rows p l r = Value s
          ∧ rows !! s = Some v ∧ covers v p)
  ∨ (indexAtLoop fuel rows p l r = Value (length rows)
     ∧ (ascending rows → nonnegative rows →
        ∀ k v, l ≤ k < r → rows !! k = Some v → ¬ covers v p)).
Proof.
  induction fuel as [|fuel IH]; intros l r Hr Hf; cbn [indexAtLoop];
    destruct (decide (l < r)) as [Hlt|Hge];
    try (right; split; [done|]; intros; lia); [lia|].
  destruct (center_bounds l r Hlt) as [Hlc Hcr].
  destruct (lookup_lt_is_Some_2 rows ((l + r) / 2) ltac:(lia)) as [c Hc].
  rewrite Hc.
  destruct (decide (p < top c)%Z) as [Hp|Hp].
  { destruct (IH l ((l + r) / 2) ltac:(lia) ltac:(lia))
      as [Hfound|[-> Hnone]]; [by left|right].
    split; [done|]. intros Ha Hn k v Hk Hv.
    destruct (decide (k < (l + r) / 2)) as [Hkc|Hkc];
      [apply (Hnone Ha Hn k v); [lia|done]|].
    unfold covers. destruct (decide (k = (l + r) / 2)) as [->|Hne].
    - assert (v = c) as -> by congruence. lia.
    - assert ((l + r) / 2 < k) as Hck by lia.
      pose proof (Ha _ _ _ _ Hck Hc Hv). pose proof (Hn _ _ Hc). lia. }
  destruct (decide (p >= top c + height c)%Z) as [Hq|Hq];
    [|left; exists ((l + r) / 2), c; unfold covers;
      split; [done|split; [done|lia]]].
  assert (ascending rows → nonnegative rows → ∀ k v,
            l ≤ k ≤ (l + r) / 2 → rows !! k = Some v → ¬ covers v p) as Hlow.
  { intros Ha Hn k v Hk Hv. unfold covers.
    destruct (decide (k = (l + r) / 2)) as [->|Hne].
    - assert (v = c) as -> by congruence. lia.
    - assert (k < (l + r) / 2) as Hkc by lia.
      pose proof (Ha _ _ _ _ Hkc Hv Hc). pose proof (Hn _ _ Hv). lia. }
  destruct (decide (l = (l + r) / 2)) as [Hlc'|Hlc'].
  { right. split; [done|]. intros Ha Hn k v Hk Hv.
    pose proof (center_left l r Hlc').
    apply (Hlow Ha Hn k v); [lia|done]. }
  destruct (IH ((l + r) / 2) r ltac:(lia) ltac:(lia))
    as [Hfound|[-> Hnone]]; [by left|right].
  split; [done|]. intros Ha Hn k v Hk Hv.
  destruct (decide (k < (l + r) / 2)) as [Hkc|Hkc].
  - apply (Hlow Ha Hn k v); [lia|done].
  - apply (Hnone Ha Hn k v); [lia|done].
Qed.

(** [indexAt] always answers, with a slot that holds the position or
    with the number of rows. *)
Lemma indexAt_cases p m :
  (∃ s v, indexAt p m = Value s ∧ heightMap m !! s = Some v ∧ covers v p)
  ∨ (indexAt p m = Value (length (heightMap m))
     ∧ (ascending (heightMap m) → nonnegative (heightMap m) →
        ∀ k v, heightMap m !! k = Some v → ¬ covers v p)).
Proof.
  unfold indexAt.
  destruct (indexAtLoop_spec (heightMap m) p (length (heightMap m)) 0
              (length (heightMap m)) ltac:(lia) ltac:(lia))
    as [Hfound|[Hlen Hnone]]; [by left|right].
  split; [done|]. intros Ha Hn k v Hk. apply (Hnone Ha Hn k v); [|done].
  apply lookup_lt_Some in Hk. lia.
Qed.

(** Where no window holds the position, the answer is the number of
    rows, whatever the state. *)
Lemma indexAt_uncovered p m :
  (∀ k v, heightMap m !! k = Some v → ¬ covers v p) →
  indexAt p m = Value (length (heightMap m)).
Proof.
  intros Hnone. destruct (indexAt_cases p m) as [(s & v & _ & Hs & Hc)|[H _]];
    [|done]. by destruct (Hnone s v Hs).
Qed.
End IndexAt.

Section Bounds.
Implicit Types (m : HeightMap) (p : Z).

Lemma row_within m k v :
  contiguous (heightMap m) → nonnegative (heightMap m) →
  heightMap m !! k = Some v →
  (0 ≤ top v ∧ top v + height v ≤ getTotalHeight m)%Z.
Proof.
  intros Hc%contiguous_stacked Hn Hk.
  assert (heightMap m ≠ []) as Hne by (intros E; by rewrite E in Hk).
  rewrite (getTotalHeight_stacked _ _ Hc Hne).
  rewrite (stacked_lookup _ _ _ _ Hc Hk).
  pose proof (extent_nonneg _ (nonnegative_take _ k Hn)).
  pose proof (extent_take_S _ _ _ Hk).
  pose proof (extent_take_le _ (S k) (length (heightMap m)) Hn
                ltac:(apply lookup_lt_Some in Hk; lia)) as Hle.
  rewrite (take_ge (heightMap m) (length (heightMap m))) in Hle by lia.
  lia.
Qed.

(** The positions the claims single out as lying in no window. *)
Lemma outside_uncovered m p :
  contiguous (heightMap m) → nonnegative (heightMap m) →
  (p < 0 ∨ getTotalHeight m ≤ p)%Z ∨ heightMap m = [] →
  ∀ k v, heightMap m !! k = Some v → ¬ covers v p.
Proof.
  intros Hc Hn Hp k v Hk. unfold covers.
  destruct Hp as [Hp|Hp]; [|by rewrite Hp in Hk].
  pose proof (row_within _ _ _ Hc Hn Hk). lia.
Qed.

Lemma inside_covered m p :
  contiguous (heightMap m) → nonnegative (heightMap m) →
  (0 ≤ p < getTotalHeight m)%Z →
  ∃ k v, heightMap m !! k = Some v ∧ covers v p.
Proof.
  intros Hc%contiguous_stacked Hn Hp.
  destruct (decide (heightMap m = [])) as [E|Hne].
  - unfold getTotalHeight in Hp. rewrite E in Hp. simpl in Hp. lia.
  - rewrite (getTotalHeight_stacked _ _ Hc Hne) in Hp.
    by apply (stacked_covered _ 0%Z).
Qed.
End Bounds.

(** Evidence of the invariants for a concrete list of rows. *)
Lemma nonnegative_Forall (rows : list IViewItem) :
  Forall (λ v, 0 ≤ height v)%Z rows → nonnegative rows.
Proof.
  intros HF k v Hk. rewrite Forall_lookup in HF. by apply (HF k v).
Qed.

Lemma scenarioA_contiguous : contiguous (heightMap scenarioA).
Proof. apply contiguous_stacked. vm_compute. tauto. Qed.

Lemma scenarioA_nonnegative : nonnegative (heightMap scenarioA).
Proof. apply nonnegative_Forall. vm_compute. repeat constructor; discriminate. Qed.

(** C3 — Binary search correctness.  In a state whose rows satisfy I1 and
    have non-negative extents, for a position [p] with
    [0 <= p < getTotalHeight()] the call [indexAt(p)] returns the one slot
    whose half-open window [[top, top + height)] holds [p]; for
    [p >= getTotalHeight()], and when there are no rows, it returns the
    number of rows. *)
Theorem indexAt_binary_search (m : HeightMap) (p : Z) :
  contiguous (heightMap m) → nonnegative (heightMap m) →
  ((0 ≤ p < getTotalHeight m)%Z →
     ∃ s v, indexAt p m = Value s ∧ heightMap m !! s = Some v ∧ covers v p
            ∧ ∀ s' v', heightMap m !! s' = Some v' → covers v' p → s' = s)
  ∧ ((getTotalHeight m ≤ p)%Z → indexAt p m = Value (itemsCount m))
  ∧ (heightMap m = [] → indexAt p m = Value (itemsCount m)).
Proof.
  intros Hc Hn.
  assert (ascending (heightMap m)) as Ha
    by (apply (stacked_ascending _ 0%Z); [by apply contiguous_stacked|done]).
  split; [|split].
  - intros Hp. destruct (inside_covered m p Hc Hn Hp) as (k & w & Hk & Hw).
    destruct (indexAt_cases p m) as [(s & v & E & Hs & Hv)|[_ Hnone]].
    + exists s, v. repeat split; try done; try apply Hv.
      intros s' v' Hs' Hv'.
      by apply (ascending_covers_unique (heightMap m) s' s v' v p).
    + by destruct (Hnone Ha Hn k w Hk).
  - intros Hp. apply indexAt_uncovered, outside_uncovered; auto.
  - intros He. apply indexAt_uncovered, outside_uncovered; auto.
Qed.

Lemma indexAt_binary_search_witness :
  ∃ s v, indexAt 35 scenarioA = Value s
         ∧ heightMap scenarioA !! s = Some v ∧ covers v 35
         ∧ ∀ s' v', heightMap scenarioA !! s' = Some v' → covers v' 35 →
             s' = s.
Proof.
  apply (indexAt_binary_search scenarioA 35).
  - exact scenarioA_contiguous.
  - exact scenarioA_nonnegative.
  - change (getTotalHeight scenarioA) with 60%Z. lia.
Defined.

(** C9 — [itemAt] is unguarded.  For a position that lies in no row's
    window (a negative one, one at or beyond [getTotalHeight()], any one
    when there are no rows), [indexAt] returns the number of rows, the
    array has no row at that slot, and [itemAt] throws on reading
    [.model] of [undefined]. *)
Theorem itemAt_unguarded (m : HeightMap) (p : Z) :
  (∀ k v, heightMap m !! k = Some v → ¬ covers v p) →
  indexAt p m = Value (itemsCount m)
  ∧ heightMap m !! itemsCount m = None
  ∧ itemAt p m = Throws.
Proof.
  intros Hnone. pose proof (indexAt_uncovered p m Hnone) as E.
  assert (heightMap m !! itemsCount m = None) as Hpast
    by (apply lookup_ge_None; unfold itemsCount; lia).
  unfold itemAt. rewrite E. fold (itemsCount m). by rewrite Hpast.
Qed.

Lemma itemAt_unguarded_witness :
  (∀ k v, heightMap scenarioA !! k = Some v → ¬ covers v 60)
  ∧ indexAt 60 scenarioA = Value (itemsCount scenarioA)
  ∧ heightMap scenarioA !! itemsCount scenarioA = None
  ∧ itemAt 60 scenarioA = Throws.
Proof.
  assert (∀ k v, heightMap scenarioA !! k = Some v → ¬ covers v 60) as H.
  { apply outside_uncovered.
    - exact scenarioA_contiguous.
    - exact scenarioA_nonnegative.
    - left. right. vm_compute. discriminate. }
  split; [exact H|]. exact (itemAt_unguarded scenarioA 60 H).
Defined.

(** C10 — Negative positions.  In a state whose rows satisfy I1 and have
    non-negative extents (empty or not), [indexAt(p)] for a negative [p]
    returns the number of rows, the value it also returns for every
    position at or beyond [getTotalHeight()], and [indexAfter(p)] returns
    the number of rows as well. *)
Theorem indexAt_negative (m : HeightMap) (p : Z) :
  contiguous (heightMap m) → nonnegative (heightMap m) → (p < 0)%Z →
  indexAt p m = Value (itemsCount m)
  ∧ (∀ q, (getTotalHeight m ≤ q)%Z → indexAt q m = indexAt p m)
  ∧ indexAfter p m = Value (itemsCount m).
Proof.
  intros Hc Hn Hp.
  assert (indexAt p m = Value (itemsCount m)) as E
    by (apply indexAt_uncovered, outside_uncovered; auto).
  split; [done|split].
  - intros q Hq. rewrite E. apply indexAt_uncovered, outside_uncovered; auto.
  - unfold indexAfter. rewrite E. unfold itemsCount. f_equal. lia.
Qed.

Lemma indexAt_negative_witness :
  indexAt (-1) scenarioA = Value (itemsCount scenarioA)
  ∧ (∀ q, (getTotalHeight scenarioA ≤ q)%Z →
       indexAt q scenarioA = indexAt (-1) scenarioA)
  ∧ indexAfter (-1) scenarioA = Value (itemsCount scenarioA).
Proof.
  apply (indexAt_negative scenarioA (-1)).
  - exact scenarioA_contiguous.
  - exact scenarioA_nonnegative.
  - lia.
Defined.

(** * Insertion *)

Section Insert.
Implicit Types (items : list Item) (rows : list IViewItem) (m : HeightMap).

Lemma insertScan_facts items : ∀ totalSize i sizeDiff idx,
  let scan := insertScan items totalSize i sizeDiff idx in
  length (itemsToInsert scan) = length items
  ∧ model <$> itemsToInsert scan = items
  ∧ ins_i scan = i + length items
  ∧ ins_trace scan = ViewItemCreate <$> items
  ∧ ins_sizeDiff scan = (sizeDiff + extent (itemsToInsert scan))%Z
  ∧ stacked (totalSize + sizeDiff) (itemsToInsert scan).
Proof.
  induction items as [|it items IH]; intros totalSize i sizeDiff idx; simpl.
  - repeat split; try done; lia.
  - destruct (IH totalSize (S i) (sizeDiff + getHeight it)%Z
                (<[id it := i]> idx)) as (H1 & H2 & H3 & H4 & H5 & H6).
    rewrite Z.add_assoc in H6.
    repeat split; try lia; try done; f_equal; assumption.
Qed.

Lemma shiftSuffix_rows rows : ∀ j d idx,
  (shiftSuffix j rows d idx).1 = shift d <$> rows.
Proof.
  induction rows as [|v rows IH]; intros j d idx; simpl; [done|].
  by rewrite IH.
Qed.

Lemma extent_shift d rows : extent (shift d <$> rows) = extent rows.
Proof. induction rows as [|v rows IH]; simpl; [done|]. f_equal. apply IH. Qed.

Lemma stacked_shift d rows : ∀ t,
  stacked t rows → stacked (t + d) (shift d <$> rows).
Proof.
  induction rows as [|v rows IH]; intros t Hs; simpl; [done|].
  destruct Hs as [<- Hs]. split; [done|].
  replace (top v + d + height v)%Z with (top v + height v + d)%Z by lia.
  by apply IH.
Qed.

Lemma insertionPoint_bound afterItemId m i0 totalSize :
  insertionPoint afterItemId m = Some (i0, totalSize) →
  i0 ≤ length (heightMap m).
Proof.
  unfold insertionPoint. destruct afterItemId as [a|]; [|intros [= <- _]; lia].
  destruct (indexes m !! a) as [slot|]; [|done].
  destruct (heightMap m !! slot) as [v|] eqn:Hv; [|done].
  intros [= <- _]. apply lookup_lt_Some in Hv. lia.
Qed.

Lemma insertionPoint_offset afterItemId m i0 totalSize :
  stacked 0 (heightMap m) →
  insertionPoint afterItemId m = Some (i0, totalSize) →
  totalSize = extent (take i0 (heightMap m)).
Proof.
  unfold insertionPoint. intros Hs.
  destruct afterItemId as [a|]; [|by intros [= <- <-]].
  destruct (indexes m !! a) as [slot|]; [|done].
  destruct (heightMap m !! slot) as [v|] eqn:Hv; [|done].
  intros [= <- <-]. rewrite (extent_take_S _ _ _ Hv).
  rewrite (stacked_lookup _ _ _ _ Hs Hv). lia.
Qed.

(** The rows after a successful insertion: the rows before the
    insertion slot, the new rows, the old rows from the slot on moved
    by the inserted extent. *)
Lemma onInsertItems_rows items afterItemId m i0 totalSize :
  insertionPoint afterItemId m = Some (i0, totalSize) →
  let scan := insertScan items totalSize i0 0 (indexes m) in
  heightMap (final (onInsertItems items afterItemId m))
  = take i0 (heightMap m) ++ itemsToInsert scan
    ++ (shift (ins_sizeDiff scan) <$> drop i0 (heightMap m)).
Proof.
  intros Hp. pose proof (insertionPoint_bound _ _ _ _ Hp) as Hb.
  unfold onInsertItems. rewrite Hp. simpl.
  destruct (insertScan_facts items totalSize i0 0 (indexes m))
    as (Hlen & _ & Hi & _).
  rewrite shiftSuffix_rows, Hi.
  rewrite app_assoc.
  rewrite take_app_length', drop_app_length'; [by rewrite <- app_assoc| |];
    rewrite length_app, length_take, Hlen; lia.
Qed.
End Insert.

(** C5 — Insert error atomicity.  When [afterItemId] is given and is not
    a key of [indexes], [onInsertItems] logs the error, leaves the rows
    and the index as they were, reads nothing from the iterator, emits no
    notification and returns [undefined] instead of the inserted extent. *)
Theorem onInsertItems_unknown_anchor (items : list Item) (a : string)
    (m : HeightMap) :
  indexes m !! a = None →
  let r := onInsertItems items (Some a) m in
  final r = m ∧ value r = None ∧ trace r = []
  ∧ console r = [doesnt_exist] ∧ unread r = items.
Proof.
  intros Ha. unfold onInsertItems, insertionPoint. rewrite Ha. by simpl.
Qed.

Lemma onInsertItems_unknown_anchor_witness :
  let r := onInsertItems [item "x" 5] (Some "z") scenarioA in
  final r = scenarioA ∧ value r = None ∧ trace r = []
  ∧ console r = [doesnt_exist] ∧ unread r = [item "x" 5].
Proof.
  apply (onInsertItems_unknown_anchor [item "x" 5] "z" scenarioA).
  vm_compute. reflexivity.
Defined.

(** C8, as claimed, fails: inserting one item in front of the three rows
    of Scenario A shifts slots 1, 2, 3, and the hook is not called on them
    in ascending slot order. *)
Lemma onInsertItems_refresh_not_ascending :
  let r := onInsertItems [item "x" 5] None scenarioA in
  ¬ (refreshedRows (trace r) = drop 1 (heightMap (final r))).
Proof. vm_compute. discriminate. Qed.

(** C8 (amended) — Insert notification ordering.  A successful insert of
    [k] items at slot [i0] emits: ['viewItem:create'] for each item in
    input order; then [onInsertItem] for each new row in reverse input
    order; then [onRefreshItem] (no render hint) for each shifted old row
    in descending slot order, from the last slot down to [i0 + k].  The
    shifted rows are the old rows from slot [i0] on, moved by the returned
    extent. *)
Theorem onInsertItems_trace (items : list Item) (afterItemId : option string)
    (m : HeightMap) (i0 : nat) (totalSize : Z) :
  insertionPoint afterItemId m = Some (i0, totalSize) →
  let r := onInsertItems items afterItemId m in
  let rows' := heightMap (final r) in
  let k := length items in
  trace r = (ViewItemCreate <$> items)
            ++ (OnInsertItem <$> reverse (take k (drop i0 rows')))
            ++ ((λ v, OnRefreshItem v false) <$> reverse (drop (i0 + k) rows'))
  ∧ model <$> take k (drop i0 rows') = items
  ∧ ∃ d, value r = Some d
         ∧ drop (i0 + k) rows' = shift d <$> drop i0 (heightMap m).
Proof.
  intros Hp. cbv zeta.
  pose proof (insertionPoint_bound _ _ _ _ Hp) as Hb.
  pose proof (onInsertItems_rows items _ _ _ _ Hp) as Hrows.
  cbv zeta in Hrows.
  destruct (insertScan_facts items totalSize i0 0 (indexes m))
    as (Hlen & Hmodel & Hi & Htr & _).
  unfold onInsertItems in *. rewrite Hp in *.
  cbn [final value trace heightMap] in *. rewrite Hrows, Htr, Hi.
  set (scan := insertScan items totalSize i0 0 (indexes m)) in *.
  assert (i0 = length (take i0 (heightMap m))) as Hl0
    by (rewrite length_take; lia).
  rewrite <- !drop_drop, !(drop_app_length' _ _ i0 Hl0).
  rewrite (drop_app_length' _ _ _ (eq_sym Hlen)).
  rewrite (take_app_length' _ _ _ (eq_sym Hlen)).
  split; [done|split; [done|]]. by eexists.
Qed.

Lemma onInsertItems_trace_witness :
  let r := onInsertItems [item "x" 5] (Some "a") scenarioA in
  let rows' := heightMap (final r) in
  trace r = (ViewItemCreate <$> [item "x" 5])
            ++ (OnInsertItem <$> reverse (take 1 (drop 1 rows')))
            ++ ((λ v, OnRefreshItem v false) <$> reverse (drop (1 + 1) rows'))
  ∧ model <$> take 1 (drop 1 rows') = [item "x" 5]
  ∧ ∃ d, value r = Some d
         ∧ drop (1 + 1) rows' = shift d <$> drop 1 (heightMap scenarioA).
Proof.
  apply (onInsertItems_trace [item "x" 5] (Some "a") scenarioA 1 10).
  vm_compute. reflexivity.
Defined.

(** * Refresh *)

Section Refresh.
Implicit Types (rows pre mid post : list IViewItem) (d : Z).

Lemma shift_0 v : shift 0 v = v.
Proof. destruct v. unfold shift, set_top. simpl. f_equal. lia. Qed.

Lemma shift_0_rows rows : shift 0 <$> rows = rows.
Proof.
  induction rows as [|v rows IH]; [done|].
  rewrite fmap_cons, IH. by rewrite shift_0.
Qed.

(** The loop over slots [j .. j + n - 1] moves exactly those rows. *)
Lemma shiftRange_app mid : ∀ pre post d,
  shiftRange (length mid) (length pre) d (pre ++ mid ++ post)
  = (Returns, pre ++ (shift d <$> mid) ++ post,
     (λ v, OnRefreshItem v false) <$> (shift d <$> mid)).
Proof.
  induction mid as [|v mid IH]; intros pre post d; [done|].
  cbn [length shiftRange app].
  rewrite list_lookup_middle by done.
  replace (<[length pre := shift d v]> (pre ++ v :: mid ++ post))
    with ((pre ++ [shift d v]) ++ mid ++ post).
  2:{ rewrite <- (Nat.add_0_r (length pre)), insert_app_r.
      by rewrite <- app_assoc. }
  replace (S (length pre)) with (length (pre ++ [shift d v]))
    by (rewrite length_app; simpl; lia).
  rewrite IH. rewrite <- app_assoc. by rewrite !fmap_cons.
Qed.

Lemma shiftRange_tail rows j d :
  j ≤ length rows →
  shiftRange (length rows - j) j d rows
  = (Returns, take j rows ++ (shift d <$> drop j rows),
     (λ v, OnRefreshItem v false) <$> (shift d <$> drop j rows)).
Proof.
  intros Hj.
  pose proof (shiftRange_app (drop j rows) (take j rows) [] d) as E.
  rewrite !app_nil_r, take_drop, length_drop, length_take in E.
  by replace (j `min` length rows) with j in E by lia.
Qed.

(** Refreshing one row: its height is replaced in place and the rows
    after it move by the difference. *)
Lemma onRefreshItems_single_rows m it s v :
  indexes m !! id it = Some s → heightMap m !! s = Some v →
  let r := onRefreshItems [it] m in
  value r = Returns ∧ indexes (final r) = indexes m ∧ unread r = []
  ∧ heightMap (final r)
    = take s (heightMap m) ++ set_row v (top v) (getHeight it)
      :: (shift (getHeight it - height v) <$> drop (S s) (heightMap m)).
Proof.
  intros Hs Hv. pose proof (lookup_lt_Some _ _ _ Hv) as Hlt.
  unfold onRefreshItems. cbn [refreshScan]. rewrite Hs.
  cbn [shiftPending fst snd]. rewrite Hv.
  cbn [rf_completion rf_rows rf_j rf_cummDiff rf_unread rf_trace].
  rewrite !Z.add_0_r, Z.add_0_l.
  set (v' := set_row v (top v) (getHeight it)).
  set (d := (getHeight it - height v)%Z).
  assert (<[s := v']> (heightMap m)
          = take s (heightMap m) ++ v' :: drop (S s) (heightMap m)) as E
    by (by apply insert_take_drop).
  unfold shiftPending. destruct (decide (d = 0%Z)) as [->|Hd].
  - cbn [final value heightMap indexes unread fst snd].
    by rewrite shift_0_rows.
  - rewrite shiftRange_tail by (rewrite length_insert; lia).
    cbn [final value heightMap indexes unread fst snd].
    repeat split; try done.
    rewrite drop_insert_lt by lia.
    rewrite (take_S_r _ _ v') by (by apply list_lookup_insert_eq).
    rewrite take_insert_ge by lia. by rewrite <- app_assoc.
Qed.
End Refresh.

(** C7 — Minimal-touch refresh.  Refreshing the single item at slot [s]
    whose height went from [h] to [h + d] returns normally, leaves the
    index and every row before slot [s] as they were, gives the row at
    slot [s] the height [h + d] at its old offset, and moves every row
    after slot [s] by exactly [d], its height and its model untouched. *)
Theorem onRefreshItems_minimal_touch (m : HeightMap) (it : Item) (s : nat)
    (v : IViewItem) (d : Z) :
  indexes m !! id it = Some s → heightMap m !! s = Some v →
  getHeight it = (height v + d)%Z →
  let r := onRefreshItems [it] m in
  value r = Returns
  ∧ indexes (final r) = indexes m
  ∧ length (heightMap (final r)) = length (heightMap m)
  ∧ (∀ k, k < s → heightMap (final r) !! k = heightMap m !! k)
  ∧ (∃ v', heightMap (final r) !! s = Some v'
           ∧ model v' = model v ∧ top v' = top v
           ∧ height v' = (height v + d)%Z)
  ∧ (∀ k w, s < k → heightMap m !! k = Some w →
       ∃ w', heightMap (final r) !! k = Some w'
             ∧ model w' = model w ∧ top w' = (top w + d)%Z
             ∧ height w' = height w).
Proof.
  intros Hs Hv Hd r.
  destruct (onRefreshItems_single_rows m it s v Hs Hv) as (Hval & Hidx & _ & E).
  fold r in Hval, Hidx, E. pose proof (lookup_lt_Some _ _ _ Hv) as Hlt.
  assert (length (take s (heightMap m)) = s) as Hl by (rewrite length_take; lia).
  replace (getHeight it - height v)%Z with d in E by lia. rewrite Hd in E.
  split; [done|split; [done|]]. rewrite E. split; [|split; [|split]].
  - rewrite length_app, Hl. simpl. rewrite length_fmap, length_drop. lia.
  - intros k Hk. rewrite lookup_app_l by lia. by apply lookup_take_lt.
  - exists (set_row v (top v) (height v + d)). split; [|done].
    rewrite <- Hl at 1. by rewrite list_lookup_middle.
  - intros k w Hk Hw. exists (shift d w). split; [|done].
    rewrite lookup_app_r by lia. rewrite Hl.
    destruct (k - s) as [|n] eqn:En; [lia|]. simpl.
    rewrite list_lookup_fmap, lookup_drop.
    replace (S s + n) with k by lia. by rewrite Hw.
Qed.

Lemma onRefreshItems_minimal_touch_witness :
  let v := {| model := item "b" 20; top := 10; height := 20 |} in
  let r := onRefreshItems [item "b" 5] scenarioA in
  value r = Returns
  ∧ indexes (final r) = indexes scenarioA
  ∧ length (heightMap (final r)) = length (heightMap scenarioA)
  ∧ (∀ k, k < 1 → heightMap (final r) !! k = heightMap scenarioA !! k)
  ∧ (∃ v', heightMap (final r) !! 1 = Some v'
           ∧ model v' = model v ∧ top v' = top v
           ∧ height v' = (height v + -15)%Z)
  ∧ (∀ k w, 1 < k → heightMap scenarioA !! k = Some w →
       ∃ w', heightMap (final r) !! k = Some w'
             ∧ model w' = model w ∧ top w' = (top w + -15)%Z
             ∧ height w' = height w).
Proof.
  apply (onRefreshItems_minimal_touch scenarioA (item "b" 5) 1
           {| model := item "b" 20; top := 10; height := 20 |} (-15)).
  - vm_compute. reflexivity.
  - vm_compute. reflexivity.
  - vm_compute. reflexivity.
Defined.

(** * Removal *)

Section Remove.
Implicit Types (rows : list IViewItem) (idx : gmap string nat)
  (pre rest : list string) (picked : list (nat * IViewItem)).

Lemma foldr_delete_commute pre idx (a : string) :
  foldr delete (delete a idx) pre = delete a (foldr delete idx pre).
Proof.
  induction pre as [|b pre IH]; simpl; [done|].
  rewrite IH. apply delete_delete.
Qed.

Lemma lookup_foldr_delete pre idx (x : string) :
  foldr delete idx pre !! x = if decide (x ∈ pre) then None else idx !! x.
Proof.
  induction pre as [|b pre IH]; simpl.
  - destruct (decide (x ∈ [])) as [Hin|_]; [by apply elem_of_nil in Hin|done].
  - destruct (decide (b = x)) as [->|Hne].
    + rewrite lookup_delete_eq.
      destruct (decide (x ∈ x :: pre)) as [_|Hn]; [done|].
      destruct Hn. by left.
    + rewrite lookup_delete_ne, IH by done.
      destruct (decide (x ∈ pre)) as [Hin|Hn];
        destruct (decide (x ∈ b :: pre)) as [Hin'|Hn']; try done.
      * destruct Hn'. by right.
      * apply elem_of_cons in Hin' as [->|Hin']; done.
Qed.

Lemma firstOf_cons startIndex slot (slots : list nat) :
  firstOf startIndex (slot :: slots)
  = firstOf match startIndex with
            | None => Some slot
            | Some _ => startIndex
            end slots.
Proof. by destruct startIndex. Qed.

Lemma lastOf_cons i slot (slots : list nat) :
  lastOf i (slot :: slots) = lastOf (Some slot) slots.
Proof. unfold lastOf. rewrite last_cons. by destruct (last slots). Qed.

Lemma picks_delete rows idx (a : string) pre picked :
  a ∉ pre → Forall2 (picks rows idx) pre picked →
  Forall2 (picks rows (delete a idx)) pre picked.
Proof.
  intros Hnotin HF. induction HF as [|b sv pre picked Hb HF IHF];
    constructor.
  - destruct Hb as (Hb1 & Hb2 & Hb3). split; [done|split; [|done]].
    rewrite lookup_delete_ne; [done|]. intros ->. apply Hnotin. by left.
  - apply IHF. intros Hin. apply Hnotin. by right.
Qed.

(** The scan over a prefix of identities it finds: each is deleted from
    the index and handed to [onRemoveItem]; the scan goes on with the
    rest of the input. *)
Lemma removeScan_app rows pre : ∀ picked rest idx sizeDiff startIndex i,
  NoDup pre → Forall2 (picks rows idx) pre picked →
  removeScan (pre ++ rest) rows idx sizeDiff startIndex i
  = rm_emit (OnRemoveItem <$> picked.*2)
      (removeScan rest rows (foldr delete idx pre)
         (sizeDiff - extent picked.*2)
         (firstOf startIndex picked.*1) (lastOf i picked.*1)).
Proof.
  induction pre as [|a pre IH];
    intros picked rest idx sizeDiff startIndex i Hnd HF.
  - apply Forall2_nil_inv_l in HF as ->. simpl.
    rewrite Z.sub_0_r. unfold firstOf, lastOf. simpl.
    destruct startIndex;
      by destruct (removeScan rest rows idx sizeDiff _ i).
  - apply Forall2_cons_inv_l in HF
      as ([slot v] & picked' & (Hne & Hidx & Hrow) & HF & ->).
    apply NoDup_cons in Hnd as [Hnotin Hnd]. simpl in Hidx, Hrow.
    cbn [app removeScan]. rewrite decide_False by done.
    rewrite Hidx. cbn [mbind option_bind]. rewrite Hrow.
    cbn [fmap option_fmap option_map].
    rewrite (IH picked' rest (delete a idx)); [|done|].
    + rewrite foldr_delete_commute, !fmap_cons. cbn [fst snd extent].
      replace (sizeDiff - (height v + extent picked'.*2))%Z
        with (sizeDiff - height v - extent picked'.*2)%Z by lia.
      rewrite firstOf_cons, lastOf_cons. done.
    + by apply picks_delete.
Qed.
(** The last branch of [onRemoveItems] is never taken: a scan that ends
    normally with a changed [sizeDiff] has set [startIndex] and [i]. *)
Lemma removeScan_keeps_start iterator rows : ∀ idx sizeDiff startIndex i,
  is_Some startIndex →
  is_Some (rm_startIndex (removeScan iterator rows idx sizeDiff startIndex i)).
Proof.
  induction iterator as [|x iterator IH]; intros idx sizeDiff startIndex i Hs;
    cbn [removeScan]; [done|].
  destruct (decide (x = "")); [done|].
  destruct (idx !! x ≫= λ slot, pair slot <$> rows !! slot) as [[slot v]|];
    [|done].
  cbn [rm_startIndex]. apply IH. by destruct startIndex.
Qed.

Lemma removeScan_keeps_i iterator rows : ∀ idx sizeDiff startIndex i,
  is_Some i →
  rm_aborted (removeScan iterator rows idx sizeDiff startIndex i) = false →
  is_Some (rm_i (removeScan iterator rows idx sizeDiff startIndex i)).
Proof.
  induction iterator as [|x iterator IH]; intros idx sizeDiff startIndex i Hi;
    cbn [removeScan]; [done|].
  destruct (decide (x = "")); [done|].
  destruct (idx !! x ≫= λ slot, pair slot <$> rows !! slot) as [[slot v]|];
    [|done].
  cbn [rm_i rm_aborted]. by apply IH.
Qed.

Lemma removeScan_span iterator rows idx :
  let scan := removeScan iterator rows idx 0 None None in
  rm_aborted scan = false → rm_sizeDiff scan ≠ 0%Z →
  is_Some (rm_startIndex scan) ∧ is_Some (rm_i scan).
Proof.
  destruct iterator as [|x iterator]; cbn [removeScan]; [done|].
  destruct (decide (x = "")); [done|].
  destruct (idx !! x ≫= λ slot, pair slot <$> rows !! slot) as [[slot v]|];
    [|done].
  cbn [rm_startIndex rm_i rm_aborted rm_sizeDiff]. intros Hok _. split.
  - by apply removeScan_keeps_start.
  - by apply removeScan_keeps_i.
Qed.
End Remove.

Lemma indexAt_rows (p : Z) (m m' : HeightMap) :
  heightMap m' = heightMap m → indexAt p m' = indexAt p m.
Proof. unfold indexAt. by intros ->. Qed.

Lemma getTotalHeight_rows (m m' : HeightMap) :
  heightMap m' = heightMap m → getTotalHeight m' = getTotalHeight m.
Proof. unfold getTotalHeight. by intros ->. Qed.

(** C6 — Remove partial-mutation window.  Let the input of
    [onRemoveItems] be [pre ++ bad :: post], where the scan finds every
    identity of [pre] (distinct non-empty strings, [picked] lists their
    slots and rows) and [bad] is a non-empty string that is no key of the
    index when the scan reaches it.  The call logs the error and stops
    there: the identities of [pre], and only they, are gone from the
    index, [onRemoveItem] was called on their rows in input order, nothing
    of [post] was read, the array of rows is the one before the call, and
    so are [getTotalHeight] and every answer of [indexAt]. *)
Theorem onRemoveItems_abort (m : HeightMap) (pre : list string) (bad : string)
    (post : list string) (picked : list (nat * IViewItem)) :
  NoDup pre → Forall2 (picks (heightMap m) (indexes m)) pre picked →
  bad ≠ "" → indexes m !! bad = None ∨ bad ∈ pre →
  let r := onRemoveItems (pre ++ bad :: post) m in
  console r = [doesnt_exist]
  ∧ heightMap (final r) = heightMap m
  ∧ (∀ x, indexes (final r) !! x
          = if decide (x ∈ pre) then None else indexes m !! x)
  ∧ trace r = OnRemoveItem <$> picked.*2
  ∧ unread r = post
  ∧ getTotalHeight (final r) = getTotalHeight m
  ∧ ∀ p, indexAt p (final r) = indexAt p m.
Proof.
  intros Hnd HF Hbad Habsent.
  assert (foldr delete (indexes m) pre !! bad = None) as Hgone.
  { rewrite lookup_foldr_delete. destruct (decide (bad ∈ pre)); [done|].
    by destruct Habsent. }
  unfold onRemoveItems.
  rewrite (removeScan_app _ _ picked _ _ _ _ _ Hnd HF).
  cbn [removeScan]. rewrite decide_False by done. rewrite Hgone.
  cbn [mbind option_bind rm_emit rm_aborted rm_indexes rm_trace rm_unread
       final console trace unread heightMap indexes].
  rewrite app_nil_r.
  repeat split; try done.
  intros x. apply lookup_foldr_delete.
Qed.

Lemma onRemoveItems_abort_witness :
  let r := onRemoveItems (["a"] ++ "z" :: ["b"]) scenarioA in
  console r = [doesnt_exist]
  ∧ heightMap (final r) = heightMap scenarioA
  ∧ (∀ x, indexes (final r) !! x
          = if decide (x ∈ ["a"]) then None else indexes scenarioA !! x)
  ∧ trace r
    = OnRemoveItem
        <$> [(0, {| model := item "a" 10; top := 0; height := 10 |})].*2
  ∧ unread r = ["b"]
  ∧ getTotalHeight (final r) = getTotalHeight scenarioA
  ∧ ∀ p, indexAt p (final r) = indexAt p scenarioA.
Proof.
  apply (onRemoveItems_abort scenarioA ["a"] "z" ["b"]
           [(0, {| model := item "a" 10; top := 0; height := 10 |})]).
  - apply NoDup_singleton.
  - constructor; [|constructor]. unfold picks. simpl.
    split; [discriminate|]. split; vm_compute; reflexivity.
  - discriminate.
  - left. vm_compute. reflexivity.
Defined.

(** * Refresh of several rows *)

Section RefreshLoop.
Implicit Types (rows : list IViewItem) (idx : gmap string nat)
  (items : list Item) (slots : list nat) (j : option nat).

Lemma shift_shift c e v : shift e (shift c v) = shift (c + e) v.
Proof. destruct v. unfold shift, set_top. simpl. f_equal. lia. Qed.

Lemma shift_shift_rows c e rows :
  shift e <$> (shift c <$> rows) = shift (c + e) <$> rows.
Proof.
  rewrite <- list_fmap_compose. apply list_fmap_ext.
  intros k v _. apply shift_shift.
Qed.

Lemma model_shift_rows d rows : model <$> (shift d <$> rows) = model <$> rows.
Proof. rewrite <- list_fmap_compose. by apply list_fmap_ext. Qed.

Lemma take_mid_drop rows (j' i : nat) :
  j' ≤ i → take (i - j') (drop j' rows) ++ drop i rows = drop j' rows.
Proof.
  intros Hle.
  replace (drop i rows) with (drop (i - j') (drop j' rows))
    by (rewrite drop_drop; f_equal; lia).
  apply take_drop.
Qed.

(** What the catch-up loop leaves: the cursor moves to [i], the layout
    aimed at stays the same. *)
Lemma shiftPending_catch_up rows c j i :
  (j = None → c = 0%Z) → cursor j ≤ i → i ≤ length rows →
  ∃ rows1 evs,
    shiftPending i j c rows = (Returns, rows1, evs)
    ∧ pending rows1 c (Some i) = pending rows c j
    ∧ length rows1 = length rows
    ∧ model <$> rows1 = model <$> rows.
Proof.
  intros Hnone Hji Hi. unfold shiftPending.
  destruct j as [j'|]; [destruct (decide (c = 0%Z)) as [->|Hc]|].
  - exists rows, []. repeat split; try done. simpl.
    by rewrite !shift_0_rows, !take_drop.
  - simpl in Hji.
    pose proof (shiftRange_app (take (i - j') (drop j' rows))
                  (take j' rows) (drop i rows) c) as E.
    rewrite length_take, length_take, length_drop in E.
    replace ((i - j') `min` (length rows - j')) with (i - j') in E by lia.
    replace (j' `min` length rows) with j' in E by lia.
    assert (take j' rows ++ take (i - j') (drop j' rows) ++ drop i rows
            = rows) as Hsplit.
    { by rewrite take_mid_drop, take_drop by lia. }
    rewrite Hsplit in E. rewrite E. eexists _, _. split; [done|].
    assert (length (take j' rows ++
                    (shift c <$> take (i - j') (drop j' rows))) = i) as Hl.
    { rewrite length_app, length_fmap, !length_take, length_drop. lia. }
    split; [|split].
    + simpl. rewrite app_assoc.
      rewrite take_app_length', drop_app_length' by done.
      rewrite <- app_assoc. f_equal. rewrite <- fmap_app. f_equal.
      by apply take_mid_drop.
    + rewrite !length_app, length_fmap, !length_take, !length_drop. lia.
    + by rewrite !fmap_app, model_shift_rows, <- !fmap_app, Hsplit.
  - rewrite (Hnone eq_refl). exists rows, []. repeat split; try done. simpl.
    by rewrite shift_0_rows, take_drop.
Qed.

(** The scan over items whose slots are strictly ascending, none before
    the cursor: it never throws, keeps the number of rows and their
    models, and leaves a state that still aims at a stacked layout. *)
Lemma refreshScan_stacked idx items : ∀ slots rows c j,
  Forall2 (λ it s, idx !! id it = Some s ∧ s < length rows) items slots →
  StronglySorted lt slots → Forall (le (cursor j)) slots →
  (j = None → c = 0%Z) → cursor j ≤ length rows →
  stacked 0 (pending rows c j) →
  let scan := refreshScan items idx rows c j in
  rf_completion scan = Returns
  ∧ rf_unread scan = []
  ∧ (rf_j scan = None → rf_cummDiff scan = 0%Z)
  ∧ cursor (rf_j scan) ≤ length rows
  ∧ length (rf_rows scan) = length rows
  ∧ model <$> rf_rows scan = model <$> rows
  ∧ stacked 0 (pending (rf_rows scan) (rf_cummDiff scan) (rf_j scan)).
Proof.
  induction items as [|it items IH];
    intros slots rows c j HF Hsort Hlow Hnone Hj Hst.
  - simpl. by repeat split.
  - apply Forall2_cons_inv_l in HF as (i & slots' & [Hi Hlt] & HF & ->).
    apply StronglySorted_inv in Hsort as [Hsort Hgt].
    apply Forall_cons in Hlow as [Hji _].
    destruct (shiftPending_catch_up rows c j i Hnone Hji ltac:(lia))
      as (rows1 & evs & E & Hpend & Hlen1 & Hmod1).
    cbn [refreshScan]. rewrite Hi, E. cbn [fst snd].
    destruct (lookup_lt_is_Some_2 rows1 i ltac:(lia)) as [v Hv]. rewrite Hv.
    set (v' := set_row v (top v + c) (getHeight it)).
    set (c' := (c + (getHeight it - height v))%Z).
    assert (length (<[i := v']> rows1) = length rows) as Hlen2
      by (by rewrite length_insert).
    assert (model <$> <[i := v']> rows1 = model <$> rows) as Hmod2.
    { rewrite list_fmap_insert. rewrite <- Hmod1.
      apply list_insert_id. by rewrite list_lookup_fmap, Hv. }
    destruct (IH slots' (<[i := v']> rows1) c' (Some (S i)))
      as (H1 & H2 & H3 & H4 & H5 & H6 & H7).
    + rewrite Hlen2. exact HF.
    + exact Hsort.
    + simpl. eapply Forall_impl; [exact Hgt|]. simpl. lia.
    + done.
    + simpl. lia.
    + rewrite <- Hpend in Hst. simpl in Hst. simpl.
      rewrite (take_S_r _ _ v') by (apply list_lookup_insert_eq; lia).
      rewrite take_insert_ge, drop_insert_lt by lia.
      rewrite (drop_S _ _ _ Hv), fmap_cons in Hst.
      rewrite <- app_assoc. simpl.
      apply stacked_app in Hst as [Hpre Hsuf]. apply stacked_app.
      split; [done|]. destruct Hsuf as [Htop Hrest]. split; [done|].
      apply (stacked_shift (getHeight it - height v)) in Hrest.
      rewrite shift_shift_rows in Hrest. simpl.
      unfold shift, set_top in Hrest. simpl in Hrest.
      match goal with
      | H : stacked ?a ?l |- stacked ?b ?l => replace b with a by lia
      end. done.
    + cbn [rf_completion rf_unread rf_j rf_cummDiff rf_rows].
      rewrite Hlen2 in H4, H5. rewrite Hmod2 in H6. by repeat split.
Qed.
End RefreshLoop.

Section RefreshAll.
Implicit Types (rows : list IViewItem) (m : HeightMap).

Lemma shiftPending_final rows c j :
  (j = None → c = 0%Z) → cursor j ≤ length rows →
  ∃ evs, shiftPending (length rows) j c rows
         = (Returns, pending rows c j, evs).
Proof.
  intros Hnone Hj. unfold shiftPending, pending.
  destruct j as [j'|]; [|by eexists].
  destruct (decide (c = 0%Z)) as [->|Hc].
  - eexists. by rewrite shift_0_rows, take_drop.
  - simpl in Hj. rewrite shiftRange_tail by done. by eexists.
Qed.

(** A refresh of rows in strictly ascending slot order returns
    normally and keeps the rows stacked; it changes neither the index
    nor the model of any row. *)
Lemma onRefreshItems_stacked m items slots :
  Forall2 (λ it s, indexes m !! id it = Some s
                   ∧ s < length (heightMap m)) items slots →
  StronglySorted lt slots →
  stacked 0 (heightMap m) →
  let r := onRefreshItems items m in
  value r = Returns
  ∧ unread r = []
  ∧ indexes (final r) = indexes m
  ∧ model <$> heightMap (final r) = model <$> heightMap m
  ∧ stacked 0 (heightMap (final r)).
Proof.
  intros HF Hsort Hst.
  destruct (refreshScan_stacked (indexes m) items slots (heightMap m) 0 None)
    as (H1 & H2 & H3 & H4 & H5 & H6 & H7); try done.
  { apply Forall_forall. intros; simpl; lia. }
  { simpl; lia. }
  unfold onRefreshItems. rewrite H1.
  destruct (shiftPending_final _ _ _ H3 ltac:(rewrite H5; exact H4))
    as [evs E].
  rewrite E. cbn [final value unread heightMap indexes fst snd].
  repeat split; try done.
  rewrite <- H6. unfold pending. destruct (rf_j _); [|done].
  by rewrite fmap_app, model_shift_rows, <- fmap_app, take_drop.
Qed.
End RefreshAll.

(** * What the loops write into the index *)

Section IndexWrites.
Implicit Types (rows : list IViewItem) (idx : gmap string nat)
  (items : list Item) (x : string).

(** An entry after the scan of an insert was written by the scan, or
    it is an old entry whose identity is not among the items. *)
Lemma insertScan_lookup items : ∀ totalSize i sizeDiff idx x s,
  ins_indexes (insertScan items totalSize i sizeDiff idx) !! x = Some s →
  (∃ k it, items !! k = Some it ∧ id it = x ∧ s = i + k)
  ∨ (idx !! x = Some s ∧ ∀ k it, items !! k = Some it → id it ≠ x).
Proof.
  induction items as [|a items IH]; intros totalSize i sizeDiff idx x s Hx;
    simpl in Hx.
  - right. split; [done|]. intros k it Hk. by rewrite lookup_nil in Hk.
  - apply IH in Hx as [(k & it & Hk & Hid & ->)|[Hx Hno]].
    + left. exists (S k), it. repeat split; try done. lia.
    + destruct (decide (id a = x)) as [<-|Hne].
      * rewrite lookup_insert_eq in Hx. injection Hx as <-.
        left. exists 0, a. repeat split; try done; lia.
      * rewrite lookup_insert_ne in Hx by done. right. split; [done|].
        intros [|k] it Hk; simpl in Hk; [by injection Hk as <-|eauto].
Qed.

(** The same for the loop that moves the rows from slot [j] on. *)
Lemma shiftSuffix_lookup rows : ∀ j d idx x s,
  (shiftSuffix j rows d idx).2 !! x = Some s →
  (∃ k v, rows !! k = Some v ∧ id (model v) = x ∧ s = j + k)
  ∨ (idx !! x = Some s ∧ ∀ k v, rows !! k = Some v → id (model v) ≠ x).
Proof.
  induction rows as [|a rows IH]; intros j d idx x s Hx; simpl in Hx.
  - right. split; [done|]. intros k v Hk. by rewrite lookup_nil in Hk.
  - apply IH in Hx as [(k & v & Hk & Hid & ->)|[Hx Hno]].
    + left. exists (S k), v. repeat split; try done. lia.
    + destruct (decide (id (model a) = x)) as [<-|Hne].
      * rewrite lookup_insert_eq in Hx. injection Hx as <-.
        left. exists 0, a. repeat split; try done; lia.
      * rewrite lookup_insert_ne in Hx by done. right. split; [done|].
        intros [|k] v Hk; simpl in Hk; [by injection Hk as <-|eauto].
Qed.

(** The loop of [onRemoveItems] is that loop plus the hook calls. *)
Lemma shiftSuffixRefresh_shiftSuffix rows : ∀ i d idx,
  shiftSuffixRefresh i rows d idx
  = (shiftSuffix i rows d idx,
     (λ v, OnRefreshItem v false) <$> (shift d <$> rows)).
Proof.
  induction rows as [|a rows IH]; intros i d idx; simpl; [done|].
  rewrite IH. simpl. by destruct (shiftSuffix _ _ _ _).
Qed.
End IndexWrites.

(** * Insertion keeps the invariants *)

Section InsertKeeps.
Implicit Types (items : list Item) (m : HeightMap).

Lemma onInsertItems_indexes items afterItemId m i0 totalSize :
  insertionPoint afterItemId m = Some (i0, totalSize) →
  let scan := insertScan items totalSize i0 0 (indexes m) in
  indexes (final (onInsertItems items afterItemId m))
  = (shiftSuffix (i0 + length items) (drop i0 (heightMap m))
       (ins_sizeDiff scan) (ins_indexes scan)).2.
Proof.
  intros Hp. pose proof (insertionPoint_bound _ _ _ _ Hp) as Hb.
  unfold onInsertItems. rewrite Hp. simpl.
  destruct (insertScan_facts items totalSize i0 0 (indexes m))
    as (Hlen & _ & Hi & _).
  rewrite Hi. do 2 f_equal. rewrite app_assoc. apply drop_app_length'.
  rewrite length_app, length_take, Hlen. lia.
Qed.

Lemma onInsertItems_failed items afterItemId m :
  insertionPoint afterItemId m = None →
  final (onInsertItems items afterItemId m) = m.
Proof. intros Hp. unfold onInsertItems. by rewrite Hp. Qed.

Lemma onInsertItems_stacked items afterItemId m :
  stacked 0 (heightMap m) →
  stacked 0 (heightMap (final (onInsertItems items afterItemId m))).
Proof.
  intros Hst. destruct (insertionPoint afterItemId m) as [[i0 t]|] eqn:Hp;
    [|by rewrite onInsertItems_failed].
  rewrite (onInsertItems_rows _ _ _ _ _ Hp).
  pose proof (insertionPoint_offset _ _ _ _ Hst Hp) as Ht.
  destruct (insertScan_facts items t i0 0 (indexes m))
    as (_ & _ & _ & _ & Hsd & Hnew).
  rewrite <- (take_drop i0 (heightMap m)) in Hst.
  apply stacked_app in Hst as [Hpre Hsuf].
  apply stacked_app. split; [done|]. apply stacked_app.
  rewrite Z.add_0_r in Hnew. rewrite Z.add_0_l in *. rewrite <- Ht.
  split; [done|]. rewrite Hsd. apply stacked_shift. by rewrite Ht.
Qed.

Lemma onInsertItems_indexed items afterItemId m :
  indexed m → indexed (final (onInsertItems items afterItemId m)).
Proof.
  intros Hidx. destruct (insertionPoint afterItemId m) as [[i0 t]|] eqn:Hp;
    [|by rewrite onInsertItems_failed].
  pose proof (insertionPoint_bound _ _ _ _ Hp) as Hb.
  intros x s Hx. rewrite (onInsertItems_indexes _ _ _ _ _ Hp) in Hx.
  rewrite (onInsertItems_rows _ _ _ _ _ Hp).
  destruct (insertScan_facts items t i0 0 (indexes m))
    as (Hlen & Hmodel & _).
  assert (length (take i0 (heightMap m)) = i0) as Hl0
    by (rewrite length_take; lia).
  apply shiftSuffix_lookup in Hx as [(k & v & Hk & Hid & ->)|[Hx Hold]].
  { exists (shift (ins_sizeDiff (insertScan items t i0 0 (indexes m))) v).
    split; [|done].
    rewrite lookup_app_r, Hl0 by lia. rewrite lookup_app_r, Hlen by lia.
    replace (i0 + length items + k - i0 - length items) with k by lia.
    by rewrite list_lookup_fmap, Hk. }
  apply insertScan_lookup in Hx as [(k & it & Hk & Hid & ->)|[Hx Hnew]].
  { assert (is_Some (itemsToInsert (insertScan items t i0 0 (indexes m))
                       !! k)) as [v Hv].
    { apply lookup_lt_is_Some. rewrite Hlen. by eapply lookup_lt_Some. }
    exists v. split.
    - rewrite lookup_app_r, Hl0 by lia.
      replace (i0 + k - i0) with k by lia. by apply lookup_app_l_Some.
    - assert ((model <$> itemsToInsert (insertScan items t i0 0 (indexes m)))
                !! k = Some it) as Hm by (by rewrite Hmodel).
      rewrite list_lookup_fmap, Hv in Hm. simpl in Hm. by injection Hm as ->. }
  destruct (Hidx x s Hx) as (v & Hv & Hid). exists v. split; [|done].
  destruct (decide (s < i0)) as [Hlt|Hge].
  - rewrite lookup_app_l by lia. by rewrite lookup_take_lt.
  - destruct (Hold (s - i0) v); [|done].
    rewrite lookup_drop. by replace (i0 + (s - i0)) with s by lia.
Qed.
End InsertKeeps.

(** * Removal of a contiguous run *)

Section RemoveRun.
Implicit Types (rows : list IViewItem) (idx : gmap string nat)
  (ids pre rest : list string) (m : HeightMap).

(** The input up to the first empty string, which ends the scan. *)
Lemma split_falsy ids :
  ∃ pre rest, ids = pre ++ rest ∧ Forall (λ x, x ≠ "") pre
              ∧ (rest = [] ∨ ∃ rest', rest = "" :: rest').
Proof.
  induction ids as [|x ids (pre & rest & -> & Hpre & Hrest)].
  - exists [], []. repeat split; [constructor|by left].
  - destruct (decide (x = "")) as [->|Hx].
    + exists [], ("" :: pre ++ rest). repeat split; [constructor|].
      right. by eexists.
    + exists (x :: pre), rest. repeat split; [by constructor|done].
Qed.

Lemma removeScan_end rest rows idx sizeDiff startIndex i :
  rest = [] ∨ (∃ rest', rest = "" :: rest') →
  removeScan rest rows idx sizeDiff startIndex i
  = {| rm_aborted := false; rm_indexes := idx; rm_sizeDiff := sizeDiff;
       rm_startIndex := startIndex; rm_i := i; rm_trace := [];
       rm_unread := tail rest |}.
Proof. by intros [->|[rest' ->]]. Qed.

Lemma run_picked rows idx pre : ∀ s0,
  (∀ k x, pre !! k = Some x →
     x ≠ "" ∧ idx !! x = Some (s0 + k) ∧ s0 + k < length rows) →
  ∃ picked, Forall2 (picks rows idx) pre picked
            ∧ picked.*1 = seq s0 (length pre)
            ∧ picked.*2 = take (length pre) (drop s0 rows).
Proof.
  induction pre as [|x pre IH]; intros s0 Hrun.
  - exists []. by repeat split.
  - destruct (Hrun 0 x eq_refl) as (Hx & Hidx & Hlt).
    rewrite Nat.add_0_r in Hidx, Hlt.
    destruct (lookup_lt_is_Some_2 rows s0 Hlt) as [v Hv].
    destruct (IH (S s0)) as (picked & HF & H1 & H2).
    { intros k y Hk. destruct (Hrun (S k) y Hk) as (? & ? & ?).
      by replace (S s0 + k) with (s0 + S k) by lia. }
    exists ((s0, v) :: picked). split; [by constructor|].
    rewrite !fmap_cons, H1, H2. split; [done|].
    simpl. by rewrite (drop_S _ _ _ Hv).
Qed.

Lemma run_NoDup idx pre s0 :
  (∀ k x, pre !! k = Some x → idx !! x = Some (s0 + k)) → NoDup pre.
Proof.
  intros Hrun. apply NoDup_alt. intros k k' x Hk Hk'.
  pose proof (Hrun k x Hk) as E. rewrite (Hrun k' x Hk') in E.
  injection E. lia.
Qed.

Lemma last_seq s0 n : last (seq s0 (S n)) = Some (s0 + n).
Proof.
  rewrite last_lookup, length_seq.
  change (pred (S n)) with n. apply lookup_seq_lt. lia.
Qed.

(** What [onRemoveItems] leaves when the scan ends normally after a run
    of [length pre] rows that starts at slot [s0]. *)
Lemma onRemoveItems_run m pre rest s0 :
  rest = [] ∨ (∃ rest', rest = "" :: rest') →
  (∀ k x, pre !! k = Some x →
     x ≠ "" ∧ indexes m !! x = Some (s0 + k)
     ∧ s0 + k < length (heightMap m)) →
  let gone := extent (take (length pre) (drop s0 (heightMap m))) in
  final (onRemoveItems (pre ++ rest) m)
  = if decide (gone = 0%Z) then
      {| heightMap := heightMap m;
         indexes := foldr delete (indexes m) pre |}
    else
      {| heightMap :=
           take s0 (heightMap m)
           ++ (shift (- gone) <$> drop (s0 + length pre) (heightMap m));
         indexes :=
           (shiftSuffix s0 (drop (s0 + length pre) (heightMap m)) (- gone)
              (foldr delete (indexes m) pre)).2 |}.
Proof.
  intros Hrest Hrun.
  assert (NoDup pre) as Hnd
    by (apply (run_NoDup (indexes m) pre s0); intros k x Hk;
        by destruct (Hrun k x Hk) as (_ & ? & _)).
  destruct (run_picked _ _ _ _ Hrun) as (picked & HF & H1 & H2).
  cbv zeta. unfold onRemoveItems.
  rewrite (removeScan_app _ _ picked _ _ _ _ _ Hnd HF).
  rewrite (removeScan_end _ _ _ _ _ _ Hrest), H1, H2.
  cbn [rm_emit rm_aborted rm_sizeDiff rm_indexes rm_startIndex rm_i].
  set (gone := extent (take (length pre) (drop s0 (heightMap m)))).
  destruct (decide (gone = 0%Z)) as [Hz|Hnz].
  { rewrite decide_True by lia. done. }
  rewrite decide_False by lia.
  destruct pre as [|x pre]; [done|].
  cbn [length]. unfold lastOf. rewrite last_seq.
  cbn [firstOf seq head]. rewrite shiftSuffixRefresh_shiftSuffix.
  cbn [final heightMap indexes fst snd]. unfold splice.
  replace (Z.to_nat (Z.of_nat (s0 + length pre) - Z.of_nat s0 + 1))
    with (S (length pre)) by lia.
  pose proof (Hrun 0 x eq_refl) as (_ & _ & Hlt).
  assert (s0 = length (take s0 (heightMap m))) as Hl0
    by (rewrite length_take; lia).
  rewrite (drop_app_length' _ _ _ Hl0), (take_app_length' _ _ _ Hl0).
  rewrite Z.sub_0_l. by rewrite shiftSuffix_rows.
Qed.
End RemoveRun.

(** * The invariants of reachable states *)

Section Reachable.
Implicit Types (ids pre rest : list string) (m : HeightMap).

Lemma contiguousRun_prefix m pre rest s0 :
  indexed m → Forall (λ x, x ≠ "") pre →
  (∀ k x, (pre ++ rest) !! k = Some x → indexes m !! x = Some (s0 + k)) →
  ∀ k x, pre !! k = Some x →
    x ≠ "" ∧ indexes m !! x = Some (s0 + k) ∧ s0 + k < length (heightMap m).
Proof.
  intros Hidx Hpre Hrun k x Hk.
  assert (indexes m !! x = Some (s0 + k)) as Hx
    by (apply Hrun; by apply lookup_app_l_Some).
  split; [|split; [done|]].
  - rewrite Forall_lookup in Hpre. by apply (Hpre k x).
  - destruct (Hidx x _ Hx) as (v & Hv & _). by eapply lookup_lt_Some.
Qed.

Lemma onRemoveItems_stacked m ids :
  stacked 0 (heightMap m) → indexed m → contiguousRun ids m →
  stacked 0 (heightMap (final (onRemoveItems ids m))).
Proof.
  intros Hst Hidx [s0 Hrun].
  destruct (split_falsy ids) as (pre & rest & -> & Hpre & Hrest).
  pose proof (contiguousRun_prefix m pre rest s0 Hidx Hpre Hrun) as Hrun'.
  rewrite (onRemoveItems_run m pre rest s0 Hrest Hrun').
  destruct (decide _) as [_|Hnz]; [done|]. simpl.
  rewrite <- (take_drop s0 (heightMap m)) in Hst.
  apply stacked_app in Hst as [Hhead Htail].
  rewrite <- (take_drop (length pre) (drop s0 (heightMap m))) in Htail.
  apply stacked_app in Htail as [_ Htail].
  rewrite drop_drop in Htail.
  apply (stacked_shift
           (- extent (take (length pre) (drop s0 (heightMap m))))) in Htail.
  apply stacked_app. split; [done|].
  match goal with
  | H : stacked ?a ?l |- stacked ?b ?l => replace b with a by lia
  end. done.
Qed.

Lemma onRemoveItems_indexed m ids :
  indexed m → contiguousRun ids m →
  indexed (final (onRemoveItems ids m)).
Proof.
  intros Hidx [s0 Hrun].
  destruct (split_falsy ids) as (pre & rest & -> & Hpre & Hrest).
  pose proof (contiguousRun_prefix m pre rest s0 Hidx Hpre Hrun) as Hrun'.
  rewrite (onRemoveItems_run m pre rest s0 Hrest Hrun').
  destruct (decide _) as [_|Hnz]; intros x s Hx; simpl in *.
  { rewrite lookup_foldr_delete in Hx.
    destruct (decide (x ∈ pre)); [done|]. by apply Hidx. }
  assert (s0 ≤ length (heightMap m)) as Hs0.
  { destruct pre as [|y pre]; [done|].
    destruct (Hrun' 0 y eq_refl) as (_ & _ & ?). lia. }
  assert (length (take s0 (heightMap m)) = s0) as Hl0
    by (rewrite length_take; lia).
  apply shiftSuffix_lookup in Hx as [(k & v & Hk & Hid & ->)|[Hx Hold]].
  { exists (shift (- extent (take (length pre) (drop s0 (heightMap m)))) v).
    split; [|exact Hid].
    rewrite lookup_app_r, Hl0 by lia.
    replace (s0 + k - s0) with k by lia. by rewrite list_lookup_fmap, Hk. }
  rewrite lookup_foldr_delete in Hx.
  destruct (decide (x ∈ pre)) as [|Hnotin]; [done|].
  destruct (Hidx x s Hx) as (v & Hv & Hid). exists v. split; [|done].
  destruct (decide (s < s0)) as [Hlt|Hge].
  { rewrite lookup_app_l by lia. by rewrite lookup_take_lt. }
  destruct (decide (s < s0 + length pre)) as [Hin|Hout].
  - destruct (lookup_lt_is_Some_2 pre (s - s0) ltac:(lia)) as [y Hy].
    destruct (Hrun' _ _ Hy) as (_ & Hys & _).
    replace (s0 + (s - s0)) with s in Hys by lia.
    destruct (Hidx y s Hys) as (w & Hw & Hwid).
    assert (y = x) as -> by congruence.
    destruct Hnotin. by eapply list_elem_of_lookup_2.
  - destruct (Hold (s - (s0 + length pre)) v); [|done].
    rewrite lookup_drop.
    by replace (s0 + length pre + (s - (s0 + length pre))) with s by lia.
Qed.

Lemma onRefreshItems_keeps m items :
  stacked 0 (heightMap m) → indexed m → ascendingSlots items m →
  stacked 0 (heightMap (final (onRefreshItems items m)))
  ∧ indexed (final (onRefreshItems items m))
  ∧ value (onRefreshItems items m) = Returns.
Proof.
  intros Hst Hidx (slots & HF & Hsort).
  destruct (onRefreshItems_stacked m items slots)
    as (Hret & _ & Hi & Hm & Hs'); try done.
  { eapply Forall2_impl; [exact HF|]. intros it s Hs. split; [done|].
    destruct (Hidx _ _ Hs) as (v & Hv & _). by eapply lookup_lt_Some. }
  split; [done|split; [|done]]. intros x s Hx. rewrite Hi in Hx.
  destruct (Hidx x s Hx) as (v & Hv & Hid).
  assert ((model <$> heightMap (final (onRefreshItems items m))) !! s
          = Some (model v)) as Hmv by (by rewrite Hm, list_lookup_fmap, Hv).
  rewrite list_lookup_fmap in Hmv.
  destruct (heightMap (final (onRefreshItems items m)) !! s) as [v'|];
    [|done].
  exists v'. split; [done|]. simpl in Hmv. by injection Hmv as ->.
Qed.

Lemma reachable_invariant m :
  reachable m → stacked 0 (heightMap m) ∧ indexed m.
Proof.
  induction 1 as [|op m Hr [Hst Hidx] Hp].
  - split; [done|]. intros x s Hx.
    change (indexes create) with (∅ : gmap string nat) in Hx.
    by rewrite lookup_empty in Hx.
  - destruct op as [items a|ids|items]; simpl.
    + split; [by apply onInsertItems_stacked|by apply onInsertItems_indexed].
    + split; [by apply onRemoveItems_stacked|by apply onRemoveItems_indexed].
    + destruct (onRefreshItems_keeps m items Hst Hidx Hp) as (? & ? & _).
      done.
Qed.
End Reachable.

(** C1 — Contiguity (I1).  Start from the empty map and perform any
    sequence of inserts whose anchor is none or a key of the index,
    removes of a contiguous run of keys, and refreshes of keys in strictly
    ascending slot order.  After each operation the first row, if any, is
    at offset 0 and every row starts where the row before it ends; and a
    refresh that is permitted in such a state returns normally. *)
Theorem reachable_contiguous (m : HeightMap) :
  reachable m →
  contiguous (heightMap m)
  ∧ ∀ items, ascendingSlots items m →
      value (onRefreshItems items m) = Returns.
Proof.
  intros Hr. destruct (reachable_invariant m Hr) as [Hst Hidx]. split.
  - by apply contiguous_stacked.
  - intros items Hasc. by apply onRefreshItems_keeps.
Qed.

Lemma reachable_scenarioA : reachable scenarioA.
Proof.
  apply (reachable_perform
           (Insert [item "a" 10; item "b" 20; item "c" 30] None) create).
  - apply reachable_create.
  - exact I.
Qed.

Lemma reachable_contiguous_witness :
  let m := perform (Remove ["b"])
             (perform (Refresh [item "a" 7; item "c" 1]) scenarioA) in
  contiguous (heightMap m)
  ∧ ∀ items, ascendingSlots items m →
      value (onRefreshItems items m) = Returns.
Proof.
  apply reachable_contiguous.
  apply reachable_perform; [apply reachable_perform|].
  - exact reachable_scenarioA.
  - exists [0; 2]. split.
    + repeat constructor.
    + repeat constructor.
  - exists 1. intros [|k] itemId Hk; [|done]. injection Hk as <-.
    vm_compute. reflexivity.
Defined.

(** * Index consistency and the zero-extent removal *)

Lemma withZeroRow_reachable : reachable withZeroRow.
Proof.
  apply (reachable_perform
           (Insert [item "a" 10; item "z" 0; item "b" 20] None) create).
  - apply reachable_create.
  - exact I.
Qed.

Lemma withZeroRow_consistent : consistent withZeroRow.
Proof.
  split.
  - intros [|[|[|k]]] v Hk; try done; injection Hk as <-;
      vm_compute; reflexivity.
  - apply reachable_invariant, withZeroRow_reachable.
Qed.

(** C2 — at the failing input.  [withZeroRow] is reachable and satisfies
    I2, and ["z"] is a contiguous run of it.  [onRemoveItems] deletes "z"
    from the index and calls [onRemoveItem], then returns at
    [if (sizeDiff === 0)] before the splice: the row of "z" is still at
    slot 1 of the array and is missing from the index, so I2 fails after a
    completed remove. *)
Theorem onRemoveItems_zero_extent_breaks_I2 :
  let r := onRemoveItems ["z"] withZeroRow in
  consistent withZeroRow
  ∧ contiguousRun ["z"] withZeroRow
  ∧ console r = []
  ∧ trace r = [OnRemoveItem {| model := item "z" 0; top := 10; height := 0 |}]
  ∧ heightMap (final r) = heightMap withZeroRow
  ∧ heightMap (final r) !! 1
    = Some {| model := item "z" 0; top := 10; height := 0 |}
  ∧ indexes (final r) !! "z" = None
  ∧ ¬ consistent (final r).
Proof.
  assert (heightMap (final (onRemoveItems ["z"] withZeroRow)) !! 1
          = Some {| model := item "z" 0; top := 10; height := 0 |}) as Hrow
    by (vm_compute; reflexivity).
  assert (indexes (final (onRemoveItems ["z"] withZeroRow)) !! "z" = None)
    as Hgone by (vm_compute; reflexivity).
  repeat split; try (vm_compute; reflexivity).
  - apply withZeroRow_consistent.
  - apply withZeroRow_consistent.
  - exists 1. intros [|k] itemId Hk; [|done]. injection Hk as <-.
    vm_compute. reflexivity.
  - intros [Hrows _]. specialize (Hrows _ _ Hrow). simpl in Hrows.
    rewrite Hgone in Hrows. discriminate.
Qed.

(** C4 — at the failing input.  Insert one item of height 0 after "a" in
    Scenario A, then remove exactly that identity: the remove returns at
    [if (sizeDiff === 0)] before the splice, the array keeps the inserted
    row, and the state differs from the one before the insert. *)
Theorem insert_remove_zero_height_not_restored :
  let inserted := final (onInsertItems [item "z" 0] (Some "a") scenarioA) in
  let r := onRemoveItems ["z"] inserted in
  contiguousRun ["z"] inserted
  ∧ console r = []
  ∧ length (heightMap scenarioA) = 3
  ∧ length (heightMap (final r)) = 4
  ∧ heightMap (final r) !! 1
    = Some {| model := item "z" 0; top := 10; height := 0 |}
  ∧ final r ≠ scenarioA.
Proof.
  repeat split; try (vm_compute; reflexivity).
  - exists 1. intros [|k] itemId Hk; [|done]. injection Hk as <-.
    vm_compute. reflexivity.
  - intros E. apply (f_equal (λ m, length (heightMap m))) in E.
    vm_compute in E. discriminate.
Qed.

(** * Index consistency where the removed extent is not zero *)

Section IndexExact.
Implicit Types (rows : list IViewItem) (idx : gmap string nat)
  (items : list Item) (x : string) (m : HeightMap).

Lemma shiftSuffix_other rows : ∀ j d idx x,
  (∀ k v, rows !! k = Some v → id (model v) ≠ x) →
  (shiftSuffix j rows d idx).2 !! x = idx !! x.
Proof.
  induction rows as [|a rows IH]; intros j d idx x Hno; simpl; [done|].
  rewrite IH by (intros k v Hk; apply (Hno (S k) v Hk)).
  apply lookup_insert_ne. apply (Hno 0 a eq_refl).
Qed.

Lemma shiftSuffix_row rows : ∀ j d idx k v,
  distinctIds rows → rows !! k = Some v →
  (shiftSuffix j rows d idx).2 !! id (model v) = Some (j + k).
Proof.
  induction rows as [|a rows IH]; intros j d idx k v Hdist Hk; [done|].
  destruct k as [|k]; simpl in *.
  - injection Hk as ->. rewrite shiftSuffix_other.
    + rewrite Nat.add_0_r. apply lookup_insert_eq.
    + intros k w Hw E.
      by pose proof (Hdist (S k) 0 w v Hw eq_refl E).
  - rewrite (IH (S j) d _ k v); [f_equal; lia| |done].
    intros k1 k2 v1 v2 H1 H2 E.
    pose proof (Hdist (S k1) (S k2) v1 v2 H1 H2 E). lia.
Qed.

Lemma insertScan_other items : ∀ totalSize i sizeDiff idx x,
  (∀ k it, items !! k = Some it → id it ≠ x) →
  ins_indexes (insertScan items totalSize i sizeDiff idx) !! x = idx !! x.
Proof.
  induction items as [|a items IH]; intros totalSize i sizeDiff idx x Hno;
    simpl; [done|].
  rewrite IH by (intros k it Hk; apply (Hno (S k) it Hk)).
  apply lookup_insert_ne. apply (Hno 0 a eq_refl).
Qed.

Lemma insertScan_item items : ∀ totalSize i sizeDiff idx k it,
  NoDup (id <$> items) → items !! k = Some it →
  ins_indexes (insertScan items totalSize i sizeDiff idx) !! id it
  = Some (i + k).
Proof.
  induction items as [|a items IH]; intros totalSize i sizeDiff idx k it Hnd Hk;
    [done|].
  rewrite fmap_cons in Hnd. apply NoDup_cons in Hnd as [Hnotin Hnd].
  destruct k as [|k]; simpl in *.
  - injection Hk as ->. rewrite insertScan_other.
    + rewrite Nat.add_0_r. apply lookup_insert_eq.
    + intros k a Ha E. apply Hnotin. rewrite <- E.
      apply list_elem_of_fmap. exists a. split; [done|].
      by eapply list_elem_of_lookup_2.
  - rewrite (IH _ (S i) _ _ k it); [f_equal; lia|done|done].
Qed.

Lemma consistent_distinctIds m : consistent m → distinctIds (heightMap m).
Proof.
  intros [Hrows _] k k' v v' Hk Hk' E.
  pose proof (Hrows _ _ Hk) as H1. pose proof (Hrows _ _ Hk') as H2.
  rewrite E in H1. congruence.
Qed.

Lemma distinctIds_drop rows n : distinctIds rows → distinctIds (drop n rows).
Proof.
  intros Hd k k' v v' Hk Hk' E. rewrite lookup_drop in Hk, Hk'.
  pose proof (Hd _ _ _ _ Hk Hk' E). lia.
Qed.

Lemma distinctIds_shift rows d :
  distinctIds rows → distinctIds (shift d <$> rows).
Proof.
  intros Hd k k' v v' Hk Hk' E. rewrite list_lookup_fmap in Hk, Hk'.
  destruct (rows !! k) as [w|] eqn:Hw; [|done].
  destruct (rows !! k') as [w'|] eqn:Hw'; [|done].
  simpl in Hk, Hk'. injection Hk as <-. injection Hk' as <-.
  by apply (Hd k k' w w').
Qed.

(** Inserting items with fresh, pairwise distinct identities keeps I2. *)
Lemma onInsertItems_consistent items afterItemId m :
  consistent m → NoDup (id <$> items) →
  Forall (λ it, indexes m !! id it = None) items →
  consistent (final (onInsertItems items afterItemId m)).
Proof.
  intros Hc Hnd Hfresh. split; [|by apply onInsertItems_indexed, Hc].
  destruct (insertionPoint afterItemId m) as [[i0 t]|] eqn:Hp;
    [|rewrite onInsertItems_failed by done; apply Hc].
  pose proof (insertionPoint_bound _ _ _ _ Hp) as Hb.
  intros s v Hs. rewrite (onInsertItems_indexes _ _ _ _ _ Hp).
  rewrite (onInsertItems_rows _ _ _ _ _ Hp) in Hs.
  destruct (insertScan_facts items t i0 0 (indexes m)) as (Hlen & Hmodel & _).
  assert (length (take i0 (heightMap m)) = i0) as Hl0
    by (rewrite length_take; lia).
  destruct Hc as [Hrows Hidx]. rewrite Forall_lookup in Hfresh.
  assert (∀ k w it, drop i0 (heightMap m) !! k = Some w → it ∈ items →
            id (model w) ≠ id it) as Hsep.
  { intros k w it Hw Hit E. rewrite lookup_drop in Hw.
    apply list_elem_of_lookup in Hit as [n Hn].
    pose proof (Hrows _ _ Hw) as H1. rewrite E, (Hfresh _ _ Hn) in H1. done. }
  apply lookup_app_Some in Hs as [Hs|[Hge Hs]].
  { apply lookup_take_Some in Hs as [Hs Hlt].
    rewrite shiftSuffix_other, insertScan_other; [by apply Hrows| |].
    - intros k it Hk E. pose proof (Hrows _ _ Hs) as H1.
      rewrite <- E, (Hfresh _ _ Hk) in H1. done.
    - intros k w Hw E. rewrite lookup_drop in Hw.
      pose proof (consistent_distinctIds m (conj Hrows Hidx) _ _ _ _ Hw Hs E).
      lia. }
  rewrite Hl0 in Hge, Hs.
  apply lookup_app_Some in Hs as [Hs|[Hge' Hs]].
  { assert ((model <$> itemsToInsert (insertScan items t i0 0 (indexes m)))
              !! (s - i0) = Some (model v)) as Hm
      by (by rewrite list_lookup_fmap, Hs).
    rewrite Hmodel in Hm.
    rewrite shiftSuffix_other.
    - rewrite (insertScan_item _ _ _ _ _ (s - i0) (model v)) by done.
      f_equal. lia.
    - intros k w Hw. apply (Hsep k w (model v) Hw).
      by eapply list_elem_of_lookup_2. }
  rewrite Hlen in Hge', Hs. rewrite list_lookup_fmap in Hs.
  destruct (drop i0 (heightMap m) !! (s - i0 - length items)) as [w|] eqn:Hw;
    [|done].
  simpl in Hs. injection Hs as <-.
  change (id (model (shift _ w))) with (id (model w)).
  rewrite (shiftSuffix_row _ _ _ _ _ w
             (distinctIds_drop _ _ (consistent_distinctIds m (conj Hrows Hidx)))
             Hw).
  f_equal. lia.
Qed.
End IndexExact.

Section RoundTrip.
Implicit Types (rows : list IViewItem) (idx : gmap string nat)
  (items : list Item) (ids : list string) (m : HeightMap).

(** Removing a run of non-empty identities whose rows have a non-zero
    total height keeps I2. *)
Lemma onRemoveItems_consistent m ids s0 :
  consistent m →
  (∀ k x, ids !! k = Some x → x ≠ "" ∧ indexes m !! x = Some (s0 + k)) →
  extent (take (length ids) (drop s0 (heightMap m))) ≠ 0%Z →
  consistent (final (onRemoveItems ids m)).
Proof.
  intros Hc Hrun Hnz. split.
  2:{ apply onRemoveItems_indexed; [apply Hc|]. exists s0.
      intros k x Hk. by destruct (Hrun k x Hk). }
  assert (∀ k x, ids !! k = Some x →
            x ≠ "" ∧ indexes m !! x = Some (s0 + k)
            ∧ s0 + k < length (heightMap m)) as Hrun'.
  { intros k x Hk. destruct (Hrun k x Hk) as [Hx Hs].
    split; [done|split; [done|]]. destruct Hc as [_ Hidx].
    destruct (Hidx _ _ Hs) as (v & Hv & _). by eapply lookup_lt_Some. }
  pose proof (onRemoveItems_run m ids [] s0 (or_introl eq_refl) Hrun') as E.
  rewrite app_nil_r in E. rewrite E. clear E.
  rewrite decide_False by done. simpl.
  assert (s0 ≤ length (heightMap m)) as Hs0.
  { destruct ids as [|y ids]; [done|].
    destruct (Hrun' 0 y eq_refl) as (_ & _ & ?). lia. }
  assert (length (take s0 (heightMap m)) = s0) as Hl0
    by (rewrite length_take; lia).
  pose proof (consistent_distinctIds m Hc) as Hdist.
  destruct Hc as [Hrows Hidx].
  intros s v Hs. apply lookup_app_Some in Hs as [Hs|[Hge Hs]].
  - apply lookup_take_Some in Hs as [Hs Hlt].
    rewrite shiftSuffix_other, lookup_foldr_delete.
    + destruct (decide (id (model v) ∈ ids)) as [Hin|_]; [|by apply Hrows].
      apply list_elem_of_lookup in Hin as [k Hk].
      destruct (Hrun k _ Hk) as [_ Hx]. rewrite (Hrows _ _ Hs) in Hx.
      injection Hx. lia.
    + intros k w Hw E. rewrite lookup_drop in Hw.
      pose proof (Hdist _ _ _ _ Hw Hs E). lia.
  - rewrite Hl0 in Hge, Hs. rewrite list_lookup_fmap in Hs.
    destruct (drop (s0 + length ids) (heightMap m) !! (s - s0)) as [w|] eqn:Hw;
      [|done].
    simpl in Hs. injection Hs as <-.
    change (id (model (shift _ w))) with (id (model w)).
    rewrite (shiftSuffix_row _ _ _ _ _ w (distinctIds_drop _ _ Hdist) Hw).
    f_equal. lia.
Qed.

(** A permitted refresh keeps I2: it writes neither the index nor the
    model of a row. *)
Lemma onRefreshItems_consistent m items :
  stacked 0 (heightMap m) → consistent m → ascendingSlots items m →
  consistent (final (onRefreshItems items m)).
Proof.
  intros Hst [Hrows Hidx] Hasc.
  split; [|by apply onRefreshItems_keeps].
  destruct Hasc as (slots & HF & Hsort).
  destruct (onRefreshItems_stacked m items slots)
    as (_ & _ & Hi & Hm & _); try done.
  { eapply Forall2_impl; [exact HF|]. intros it s Hs. split; [done|].
    destruct (Hidx _ _ Hs) as (v & Hv & _). by eapply lookup_lt_Some. }
  intros k v' Hk. rewrite Hi.
  assert ((model <$> heightMap m) !! k = Some (model v')) as Hmv
    by (by rewrite <- Hm, list_lookup_fmap, Hk).
  rewrite list_lookup_fmap in Hmv.
  destruct (heightMap m !! k) as [v|] eqn:Hv; [|done].
  simpl in Hmv. injection Hmv as <-. by apply Hrows.
Qed.

(** Insert/remove round trip, where the inserted extent is not zero: in a
    state that satisfies I2, inserting items with fresh, pairwise distinct,
    non-empty identities and then removing exactly those identities gives
    back the rows and the index of the state before the insert. *)
Lemma insert_remove_round_trip m items afterItemId d :
  consistent m → NoDup (id <$> items) →
  Forall (λ it, id it ≠ "" ∧ indexes m !! id it = None) items →
  value (onInsertItems items afterItemId m) = Some d → d ≠ 0%Z →
  final (onRemoveItems (id <$> items)
           (final (onInsertItems items afterItemId m))) = m.
Proof.
  intros Hc Hnd Hfresh Hval Hd.
  destruct (insertionPoint afterItemId m) as [[i0 t]|] eqn:Hp;
    [|unfold onInsertItems in Hval; by rewrite Hp in Hval].
  pose proof (insertionPoint_bound _ _ _ _ Hp) as Hb.
  assert (Forall (λ it, indexes m !! id it = None) items) as Hfresh'
    by (eapply Forall_impl; [exact Hfresh|]; by intros it [_ ?]).
  pose proof (onInsertItems_consistent items afterItemId m Hc Hnd Hfresh')
    as Hc1.
  pose proof (onInsertItems_indexes items _ _ _ _ Hp) as Hidx1.
  pose proof (onInsertItems_rows items _ _ _ _ Hp) as Hrows1.
  cbv zeta in Hidx1, Hrows1.
  destruct (insertScan_facts items t i0 0 (indexes m))
    as (Hlen & Hmodel & _ & _ & Hsd & _).
  assert (ins_sizeDiff (insertScan items t i0 0 (indexes m)) = d) as Hsd'.
  { unfold onInsertItems in Hval. rewrite Hp in Hval. simpl in Hval.
    by injection Hval. }
  rewrite Hsd' in Hsd, Hidx1, Hrows1. rewrite Z.add_0_l in Hsd.
  set (m1 := final (onInsertItems items afterItemId m)) in *.
  set (new := itemsToInsert (insertScan items t i0 0 (indexes m))) in *.
  assert (i0 = length (take i0 (heightMap m))) as Hl0
    by (rewrite length_take; lia).
  assert (drop i0 (heightMap m1)
          = new ++ (shift d <$> drop i0 (heightMap m))) as Hdrop
    by (rewrite Hrows1; by apply drop_app_length').
  assert (∀ k x, (id <$> items) !! k = Some x →
            x ≠ "" ∧ indexes m1 !! x = Some (i0 + k)
            ∧ i0 + k < length (heightMap m1)) as Hrun.
  { intros k x Hk. rewrite list_lookup_fmap in Hk.
    destruct (items !! k) as [it|] eqn:Hit; [|done].
    simpl in Hk. injection Hk as <-.
    rewrite Forall_lookup in Hfresh. destruct (Hfresh _ _ Hit) as [Hne _].
    assert (is_Some (new !! k)) as [v Hv]
      by (apply lookup_lt_is_Some; rewrite Hlen; by eapply lookup_lt_Some).
    assert (model v = it) as <-.
    { assert ((model <$> new) !! k = Some (model v)) as Hm
        by (by rewrite list_lookup_fmap, Hv).
      rewrite Hmodel, Hit in Hm. by injection Hm. }
    assert (heightMap m1 !! (i0 + k) = Some v) as Hrow.
    { rewrite <- lookup_drop, Hdrop. by apply lookup_app_l_Some. }
    split; [done|split; [by apply Hc1|by eapply lookup_lt_Some]]. }
  pose proof (onRemoveItems_run m1 (id <$> items) [] i0
                (or_introl eq_refl) Hrun) as E.
  rewrite app_nil_r, length_fmap in E. rewrite E. clear E.
  assert (take (length items) (drop i0 (heightMap m1)) = new) as Hmid
    by (rewrite Hdrop; by apply take_app_length').
  assert (drop (i0 + length items) (heightMap m1)
          = shift d <$> drop i0 (heightMap m)) as Hsuf
    by (rewrite <- drop_drop, Hdrop; by apply drop_app_length').
  rewrite Hmid, Hsuf, <- Hsd. rewrite decide_False by done.
  assert (take i0 (heightMap m1) = take i0 (heightMap m)) as Hpre
    by (rewrite Hrows1; by apply take_app_length').
  rewrite Hpre, shift_shift_rows, Z.add_opp_diag_r, shift_0_rows, take_drop.
  destruct m as [rows idx]. simpl in *. f_equal.
  pose proof (consistent_distinctIds _ Hc) as Hdist. destruct Hc as [Hr Hi].
  simpl in *. apply map_eq. intros x.
  destruct (decide (x ∈ (λ w, id (model w)) <$> drop i0 rows)) as [Hin|Hout].
  - apply list_elem_of_fmap in Hin as (w & -> & Hin).
    apply list_elem_of_lookup in Hin as [k Hk].
    rewrite (shiftSuffix_row _ _ _ _ k (shift d w)).
    + rewrite lookup_drop in Hk. symmetry. by apply Hr.
    + by apply distinctIds_shift, distinctIds_drop.
    + by rewrite list_lookup_fmap, Hk.
  - assert (∀ k w, drop i0 rows !! k = Some w → id (model w) ≠ x) as Hno.
    { intros k w Hk <-. apply Hout. apply list_elem_of_fmap.
      exists w. split; [done|]. by eapply list_elem_of_lookup_2. }
    rewrite shiftSuffix_other, lookup_foldr_delete.
    2:{ intros k w Hk. rewrite list_lookup_fmap in Hk.
        destruct (drop i0 rows !! k) as [w'|] eqn:Hw'; [|done].
        simpl in Hk. injection Hk as <-. by apply (Hno k w'). }
    destruct (decide (x ∈ id <$> items)) as [Hx|Hx].
    + apply list_elem_of_fmap in Hx as (it & -> & Hit).
      rewrite Forall_forall in Hfresh'. symmetry. by apply Hfresh'.
    + rewrite Hidx1, shiftSuffix_other by done.
      apply insertScan_other. intros k it Hk <-. apply Hx.
      apply list_elem_of_fmap. exists it. split; [done|].
      by eapply list_elem_of_lookup_2.
Qed.
End RoundTrip.

Lemma scenarioA_consistent : consistent scenarioA.
Proof.
  split.
  - intros [|[|[|k]]] v Hk; try done; injection Hk as <-;
      vm_compute; reflexivity.
  - apply reachable_invariant, reachable_scenarioA.
Qed.

Example round_trip_scenarioA :
  final (onRemoveItems (id <$> [item "x" 5; item "y" 0])
           (final (onInsertItems [item "x" 5; item "y" 0] (Some "a")
                     scenarioA)))
  = scenarioA.
Proof.
  apply (insert_remove_round_trip scenarioA [item "x" 5; item "y" 0]
           (Some "a") 5).
  - exact scenarioA_consistent.
  - apply (bool_decide_unpack _). vm_compute. exact I.
  - repeat constructor; try discriminate; vm_compute; reflexivity.
  - vm_compute. reflexivity.
  - discriminate.
Qed.

(** * The scenarios of the specification *)

Example scenarioA_rows :
  heightMap scenarioA =
    [ {| model := item "a" 10; top := 0; height := 10 |};
      {| model := item "b" 20; top := 10; height := 20 |};
      {| model := item "c" 30; top := 30; height := 30 |} ]
  ∧ getTotalHeight scenarioA = 60%Z
  ∧ indexAt 35 scenarioA = Value 2
  ∧ indexes scenarioA !! "c" = Some 2.
Proof. vm_compute. auto. Qed.

Example scenarioB :
  (top <$> heightMap (final (onRefreshItems [item "b" 5] scenarioA)))
    = [0; 10; 15]%Z
  ∧ getTotalHeight (final (onRefreshItems [item "b" 5] scenarioA)) = 45%Z.
Proof. vm_compute. auto. Qed.

Example scenarioC :
  heightMap (final (onRemoveItems ["a"; "b"] scenarioA))
    = [ {| model := item "c" 30; top := 0; height := 30 |} ]
  ∧ getTotalHeight (final (onRemoveItems ["a"; "b"] scenarioA)) = 30%Z.
Proof. vm_compute. auto. Qed.

Example scenarioD :
  final (onRemoveItems ["q"] scenarioA) = scenarioA
  ∧ console (onRemoveItems ["q"] scenarioA) = [doesnt_exist]
  ∧ trace (onRemoveItems ["q"] scenarioA) = [].
Proof. vm_compute. auto. Qed.

(** * More on the position queries *)

Section Queries.
Implicit Types (rows : list IViewItem) (m : HeightMap) (p q : Z).

Lemma covers_positive v p : covers v p → (0 < height v)%Z.
Proof. unfold covers. lia. Qed.

Lemma indexAt_value m p :
  ∃ s, indexAt p m = Value s ∧ s ≤ length (heightMap m)
       ∧ ∀ v, heightMap m !! s = Some v → covers v p.
Proof.
  destruct (indexAt_cases p m) as [(s & v & E & Hs & Hc)|[E _]].
  - exists s. split; [done|]. split.
    + apply lookup_lt_Some in Hs. lia.
    + intros v' Hv'. by assert (v' = v) as -> by congruence.
  - exists (length (heightMap m)). split; [done|]. split; [done|].
    intros v Hv. apply lookup_lt_Some in Hv. lia.
Qed.

Lemma contiguous_ascending rows :
  contiguous rows → nonnegative rows → ascending rows.
Proof.
  intros Hc Hn. apply (stacked_ascending _ 0%Z); [|done].
  by apply contiguous_stacked.
Qed.

Lemma indexAt_covered m p :
  contiguous (heightMap m) → nonnegative (heightMap m) →
  (0 ≤ p < getTotalHeight m)%Z →
  ∃ s v, indexAt p m = Value s ∧ heightMap m !! s = Some v ∧ covers v p.
Proof.
  intros Hc Hn Hp. destruct (inside_covered m p Hc Hn Hp) as (k & w & Hk & Hw).
  destruct (indexAt_cases p m) as [Hfound|[_ Hnone]]; [done|].
  by destruct (Hnone (contiguous_ascending _ Hc Hn) Hn k w Hk).
Qed.

(** Two covered positions in order are answered by slots in order. *)
Lemma covered_slots_ordered rows k k' v v' p q :
  ascending rows → rows !! k = Some v → rows !! k' = Some v' →
  covers v p → covers v' q → (p ≤ q)%Z → k ≤ k'.
Proof.
  unfold covers. intros Ha Hk Hk' Hp Hq Hpq.
  destruct (decide (k ≤ k')) as [|Hgt]; [done|].
  pose proof (Ha k' k v' v ltac:(lia) Hk' Hk). lia.
Qed.

Lemma visitSlots_within n : ∀ i rows,
  i + n ≤ length rows →
  visitSlots n i rows
  = (Returns, (λ v, id (model v)) <$> take n (drop i rows)).
Proof.
  induction n as [|n IH]; intros i rows Hn; [done|]. cbn [visitSlots].
  destruct (lookup_lt_is_Some_2 rows i ltac:(lia)) as [v Hv]. rewrite Hv.
  rewrite IH by lia. rewrite (drop_S _ _ _ Hv). done.
Qed.

Lemma visitSlots_beyond n : ∀ i rows,
  i ≤ length rows → length rows < i + n →
  visitSlots n i rows = (TypeError, (λ v, id (model v)) <$> drop i rows).
Proof.
  induction n as [|n IH]; intros i rows Hi Hn; [lia|]. cbn [visitSlots].
  destruct (rows !! i) as [v|] eqn:Hv.
  - pose proof (lookup_lt_Some _ _ _ Hv).
    rewrite IH by lia. by rewrite (drop_S _ _ _ Hv).
  - apply lookup_ge_None in Hv. by rewrite drop_ge by lia.
Qed.
End Queries.

(** X1 — The binary search of [indexAt] ends on every array, sorted or
    not: it answers a slot no larger than the number of rows, and when it
    answers the slot of a row, the position lies in the window of that
    row, whose height is therefore positive. *)
Theorem indexAt_total_sound (m : HeightMap) (p : Z) :
  ∃ s, indexAt p m = Value s ∧ s ≤ itemsCount m
       ∧ ∀ v, heightMap m !! s = Some v → covers v p ∧ (0 < height v)%Z.
Proof.
  destruct (indexAt_value m p) as (s & E & Hle & Hc).
  exists s. split; [done|split; [done|]]. intros v Hv.
  split; [by apply Hc|]. by apply (covers_positive v p), Hc.
Qed.

(** X2 — [indexAt] is monotone on non-negative positions: under I1 with
    non-negative heights, for [0 <= p <= q] the slot answered for [p] is
    at most the slot answered for [q] (the row count, once [q] is at or
    beyond the total height). *)
Theorem indexAt_monotone (m : HeightMap) (p q : Z) :
  contiguous (heightMap m) → nonnegative (heightMap m) →
  (0 ≤ p ≤ q)%Z →
  ∃ s t, indexAt p m = Value s ∧ indexAt q m = Value t ∧ s ≤ t.
Proof.
  intros Hc Hn Hpq.
  destruct (indexAt_value m p) as (s & Es & Hs & Hcs).
  destruct (indexAt_value m q) as (t & Et & Ht & Hct).
  exists s, t. split; [done|split; [done|]].
  destruct (decide (q < getTotalHeight m)%Z) as [Hq|Hq].
  - destruct (indexAt_covered m p Hc Hn ltac:(lia))
      as (s' & v & Es' & Hv & Hcv).
    destruct (indexAt_covered m q Hc Hn ltac:(lia))
      as (t' & w & Et' & Hw & Hcw).
    assert (s' = s) as -> by congruence. assert (t' = t) as -> by congruence.
    by apply (covered_slots_ordered (heightMap m) s t v w p q);
      [apply contiguous_ascending| | | | |lia].
  - rewrite (indexAt_uncovered q m) in Et.
    + injection Et as <-. done.
    + apply outside_uncovered; [done|done|]. left. right. lia.
Qed.

Lemma indexAt_monotone_witness :
  ∃ s t, indexAt 5 scenarioA = Value s ∧ indexAt 35 scenarioA = Value t
         ∧ s ≤ t.
Proof.
  apply (indexAt_monotone scenarioA 5 35).
  - exact scenarioA_contiguous.
  - exact scenarioA_nonnegative.
  - lia.
Defined.

(** X3 — From a position to an identity and back to the slot: under I1,
    I2 and non-negative heights, for [0 <= p < getTotalHeight()] the call
    [itemAt(p)] returns the id of the row whose window holds [p], and the
    index sends that id to the slot [indexAt(p)] answers. *)
Theorem itemAt_indexes_indexAt (m : HeightMap) (p : Z) :
  contiguous (heightMap m) → nonnegative (heightMap m) → consistent m →
  (0 ≤ p < getTotalHeight m)%Z →
  ∃ x s v, itemAt p m = Value x ∧ indexAt p m = Value s
           ∧ indexes m !! x = Some s
           ∧ heightMap m !! s = Some v ∧ id (model v) = x ∧ covers v p.
Proof.
  intros Hc Hn [Hrows _] Hp.
  destruct (indexAt_covered m p Hc Hn Hp) as (s & v & E & Hs & Hv).
  exists (id (model v)), s, v. unfold itemAt. rewrite E, Hs.
  split; [done|split; [done|split; [by apply Hrows|done]]].
Qed.

Lemma itemAt_indexes_indexAt_witness :
  ∃ x s v, itemAt 35 scenarioA = Value x ∧ indexAt 35 scenarioA = Value s
           ∧ indexes scenarioA !! x = Some s
           ∧ heightMap scenarioA !! s = Some v ∧ id (model v) = x
           ∧ covers v 35.
Proof.
  apply (itemAt_indexes_indexAt scenarioA 35).
  - exact scenarioA_contiguous.
  - exact scenarioA_nonnegative.
  - exact scenarioA_consistent.
  - change (getTotalHeight scenarioA) with 60%Z. lia.
Defined.

(** X4 — [withItemsInRange(start, end, fn)] with both ends inside the
    content: under I1 with non-negative heights and
    [0 <= start <= end < getTotalHeight()], the call returns normally
    after calling [fn] on the ids of the slots from the one that holds
    [start] to the one that holds [end], in ascending slot order; every
    row whose window holds a position of [[start, end]] is among them. *)
Theorem withItemsInRange_inside (m : HeightMap) (start end_ : Z) :
  contiguous (heightMap m) → nonnegative (heightMap m) →
  (0 ≤ start ≤ end_)%Z → (end_ < getTotalHeight m)%Z →
  ∃ s e, indexAt start m = Value s ∧ indexAt end_ m = Value e ∧ s ≤ e
         ∧ e < itemsCount m
         ∧ withItemsInRange start end_ m
           = (Value tt,
              (λ v, id (model v)) <$> take (S e - s) (drop s (heightMap m)))
         ∧ ∀ k v p, heightMap m !! k = Some v → covers v p →
             (start ≤ p ≤ end_)%Z → s ≤ k ≤ e.
Proof.
  intros Hc Hn Hse He.
  pose proof (contiguous_ascending _ Hc Hn) as Ha.
  destruct (indexAt_covered m start Hc Hn ltac:(lia))
    as (s & v & Es & Hs & Hv).
  destruct (indexAt_covered m end_ Hc Hn ltac:(lia))
    as (e & w & Ee & Hw & Hcw).
  pose proof (lookup_lt_Some _ _ _ Hw) as Hlt.
  assert (s ≤ e) as Hle
    by (apply (covered_slots_ordered (heightMap m) s e v w start end_);
        try done; lia).
  exists s, e. repeat split; try done.
  - unfold withItemsInRange. rewrite Es, Ee.
    by rewrite visitSlots_within by lia.
  - by apply (covered_slots_ordered (heightMap m) s k v v0 start p);
      try done; lia.
  - by apply (covered_slots_ordered (heightMap m) k e v0 w p end_);
      try done; lia.
Qed.

Lemma withItemsInRange_inside_witness :
  ∃ s e, indexAt 5 scenarioA = Value s ∧ indexAt 35 scenarioA = Value e
         ∧ s ≤ e ∧ e < itemsCount scenarioA
         ∧ withItemsInRange 5 35 scenarioA
           = (Value tt,
              (λ v, id (model v))
                <$> take (S e - s) (drop s (heightMap scenarioA)))
         ∧ ∀ k v p, heightMap scenarioA !! k = Some v → covers v p →
             (5 ≤ p ≤ 35)%Z → s ≤ k ≤ e.
Proof.
  apply (withItemsInRange_inside scenarioA 5 35).
  - exact scenarioA_contiguous.
  - exact scenarioA_nonnegative.
  - lia.
  - change (getTotalHeight scenarioA) with 60%Z. lia.
Defined.

(** X5 — [withItemsInRange] is unguarded at the end of the content: when
    no row's window holds [end] (it is at or beyond the total height, or
    negative, or there are no rows), [indexAt(end)] is the row count, the
    loop runs up to that slot inclusive, and the call throws on reading
    [.model] of the missing row, after calling [fn] on every row from the
    slot answered for [start] to the last one. *)
Theorem withItemsInRange_end_outside (m : HeightMap) (start end_ : Z) :
  (∀ k v, heightMap m !! k = Some v → ¬ covers v end_) →
  ∃ s, indexAt start m = Value s
       ∧ withItemsInRange start end_ m
         = (Throws, (λ v, id (model v)) <$> drop s (heightMap m)).
Proof.
  intros Hnone. destruct (indexAt_value m start) as (s & Es & Hs & _).
  exists s. split; [done|]. unfold withItemsInRange.
  rewrite Es, (indexAt_uncovered end_ m Hnone).
  by rewrite visitSlots_beyond by lia.
Qed.

Lemma withItemsInRange_end_outside_witness :
  ∃ s, indexAt 35 scenarioA = Value s
       ∧ withItemsInRange 35 60 scenarioA
         = (Throws, (λ v, id (model v)) <$> drop s (heightMap scenarioA)).
Proof.
  apply (withItemsInRange_end_outside scenarioA 35 60).
  apply outside_uncovered.
  - exact scenarioA_contiguous.
  - exact scenarioA_nonnegative.
  - left. right. change (getTotalHeight scenarioA) with 60%Z. lia.
Defined.

(** X6 — [itemAfter] under I2: for the row at slot [k] it returns the row
    at slot [k + 1], and [null] for the last row; for a row whose id is
    no key of the index it returns [null]. *)
Theorem itemAfter_next (m : HeightMap) (k : nat) (v : IViewItem) :
  consistent m → heightMap m !! k = Some v →
  itemAfter v m = itemAtIndex (S k) m
  ∧ (S k = itemsCount m → itemAfter v m = None)
  ∧ ∀ w, indexes m !! id (model w) = None → itemAfter w m = None.
Proof.
  intros [Hrows _] Hk. unfold itemAfter, itemAtIndex, itemsCount.
  rewrite (Hrows _ _ Hk). simpl. repeat split; try done.
  - intros E. apply lookup_ge_None. lia.
  - intros w Hw. by rewrite Hw.
Qed.

Lemma itemAfter_next_witness :
  let v := {| model := item "b" 20; top := 10; height := 20 |} in
  itemAfter v scenarioA = itemAtIndex 2 scenarioA
  ∧ (2 = itemsCount scenarioA → itemAfter v scenarioA = None)
  ∧ ∀ w, indexes scenarioA !! id (model w) = None →
      itemAfter w scenarioA = None.
Proof.
  apply (itemAfter_next scenarioA 1).
  - exact scenarioA_consistent.
  - vm_compute. reflexivity.
Defined.

(** X7 — Under I1 [getTotalHeight()], read off the last row, is the sum
    of the heights of all rows, and every row lies inside
    [[0, getTotalHeight()]] when the heights are non-negative. *)
Theorem getTotalHeight_sum (m : HeightMap) :
  contiguous (heightMap m) →
  getTotalHeight m = extent (heightMap m)
  ∧ (nonnegative (heightMap m) →
     ∀ k v, heightMap m !! k = Some v →
       (0 ≤ top v ∧ top v + height v ≤ getTotalHeight m)%Z).
Proof.
  intros Hc. split.
  - destruct (decide (heightMap m = [])) as [E|Hne].
    + unfold getTotalHeight. by rewrite E.
    + apply contiguous_stacked in Hc.
      rewrite (getTotalHeight_stacked m 0 Hc Hne). lia.
  - intros Hn k v Hk. by apply (row_within m k v).
Qed.

Lemma getTotalHeight_sum_witness :
  getTotalHeight scenarioA = extent (heightMap scenarioA)
  ∧ (nonnegative (heightMap scenarioA) →
     ∀ k v, heightMap scenarioA !! k = Some v →
       (0 ≤ top v ∧ top v + height v ≤ getTotalHeight scenarioA)%Z).
Proof.
  apply (getTotalHeight_sum scenarioA). exact scenarioA_contiguous.
Defined.

(** * More on insertion *)

Section InsertMore.
Implicit Types (items : list Item) (rows : list IViewItem) (m : HeightMap).

Lemma getTotalHeight_extent m :
  stacked 0 (heightMap m) → getTotalHeight m = extent (heightMap m).
Proof.
  intros Hst. destruct (decide (heightMap m = [])) as [E|Hne].
  - unfold getTotalHeight. by rewrite E.
  - rewrite (getTotalHeight_stacked m 0 Hst Hne). lia.
Qed.

(** The rows the scan creates, one by one. *)
Lemma insertScan_row items : ∀ totalSize i sizeDiff idx k it,
  items !! k = Some it →
  itemsToInsert (insertScan items totalSize i sizeDiff idx) !! k
  = Some {| model := it;
            top := totalSize + sizeDiff
                   + extent (createViewItem <$> take k items);
            height := getHeight it |}.
Proof.
  induction items as [|a items IH]; intros totalSize i sizeDiff idx k it Hk;
    [done|].
  destruct k as [|k]; cbn [insertScan itemsToInsert].
  - injection Hk as ->. simpl. unfold set_top. simpl. do 2 f_equal. lia.
  - simpl in Hk. cbn [lookup list_lookup]. rewrite (IH _ _ _ _ k it Hk).
    do 2 f_equal. rewrite firstn_cons, fmap_cons. simpl. lia.
Qed.

Lemma insertScan_extent items totalSize i sizeDiff idx :
  extent (itemsToInsert (insertScan items totalSize i sizeDiff idx))
  = extent (createViewItem <$> items).
Proof.
  revert i sizeDiff idx.
  induction items as [|a items IH]; intros i sizeDiff idx; [done|].
  cbn [insertScan itemsToInsert]. rewrite fmap_cons. simpl. by rewrite IH.
Qed.

(** Lookups in the rows after a successful insertion. *)
Lemma onInsertItems_lookup items afterItemId m i0 totalSize :
  insertionPoint afterItemId m = Some (i0, totalSize) →
  let scan := insertScan items totalSize i0 0 (indexes m) in
  let rows' := heightMap (final (onInsertItems items afterItemId m)) in
  (∀ k, k < i0 → rows' !! k = heightMap m !! k)
  ∧ (∀ k, k < length items → rows' !! (i0 + k) = itemsToInsert scan !! k)
  ∧ (∀ k, i0 ≤ k →
       rows' !! (k + length items)
       = shift (ins_sizeDiff scan) <$> heightMap m !! k).
Proof.
  intros Hp. cbv zeta. pose proof (insertionPoint_bound _ _ _ _ Hp) as Hb.
  rewrite (onInsertItems_rows _ _ _ _ _ Hp).
  destruct (insertScan_facts items totalSize i0 0 (indexes m)) as (Hlen & _).
  assert (length (take i0 (heightMap m)) = i0) as Hl0
    by (rewrite length_take; lia).
  split; [|split].
  - intros k Hk. rewrite lookup_app_l by lia. by apply lookup_take_lt.
  - intros k Hk. rewrite lookup_app_r, Hl0 by lia.
    replace (i0 + k - i0) with k by lia. apply lookup_app_l. lia.
  - intros k Hk. rewrite lookup_app_r, Hl0 by lia.
    rewrite lookup_app_r, Hlen by lia.
    rewrite list_lookup_fmap, lookup_drop. do 2 f_equal. lia.
Qed.
End InsertMore.

(** X8 — What a successful insert returns and adds: [onInsertItems]
    reads the whole iterator, logs nothing, returns the sum of the
    heights of the rows it created, and the number of rows grows by the
    number of items; under I1 [getTotalHeight()] grows by exactly the
    returned value. *)
Theorem onInsertItems_accounting (items : list Item)
    (afterItemId : option string) (m : HeightMap) (i0 : nat) (totalSize : Z) :
  insertionPoint afterItemId m = Some (i0, totalSize) →
  let r := onInsertItems items afterItemId m in
  let d := extent (createViewItem <$> items) in
  value r = Some d ∧ unread r = [] ∧ console r = []
  ∧ itemsCount (final r) = itemsCount m + length items
  ∧ (contiguous (heightMap m) →
     getTotalHeight (final r) = (getTotalHeight m + d)%Z).
Proof.
  intros Hp. cbv zeta.
  pose proof (insertionPoint_bound _ _ _ _ Hp) as Hb.
  pose proof (onInsertItems_rows items _ _ _ _ Hp) as Hrows.
  cbv zeta in Hrows.
  destruct (insertScan_facts items totalSize i0 0 (indexes m))
    as (Hlen & _ & _ & _ & Hsd & _).
  rewrite Z.add_0_l, insertScan_extent in Hsd.
  split; [|split; [|split; [|split]]].
  - unfold onInsertItems. rewrite Hp. simpl. by rewrite Hsd.
  - unfold onInsertItems. by rewrite Hp.
  - unfold onInsertItems. by rewrite Hp.
  - unfold itemsCount. rewrite Hrows.
    rewrite !length_app, length_fmap, length_take, length_drop, Hlen. lia.
  - intros Hc%contiguous_stacked.
    rewrite (getTotalHeight_extent _ (onInsertItems_stacked items _ _ Hc)).
    rewrite (getTotalHeight_extent _ Hc), Hrows.
    rewrite !extent_app, extent_shift, insertScan_extent.
    rewrite <- (take_drop i0 (heightMap m)) at 3. rewrite extent_app. lia.
Qed.

Lemma onInsertItems_accounting_witness :
  let r := onInsertItems [item "x" 5; item "y" 7] (Some "a") scenarioA in
  let d := extent (createViewItem <$> [item "x" 5; item "y" 7]) in
  value r = Some d ∧ unread r = [] ∧ console r = []
  ∧ itemsCount (final r) = itemsCount scenarioA + 2
  ∧ (contiguous (heightMap scenarioA) →
     getTotalHeight (final r) = (getTotalHeight scenarioA + d)%Z).
Proof.
  apply (onInsertItems_accounting [item "x" 5; item "y" 7] (Some "a")
           scenarioA 1 10).
  vm_compute. reflexivity.
Defined.

(** X9 — Insert, then look up.  In a state that satisfies I2 and whose
    index has no entry for ["__proto__"], after a successful insert at
    slot [i0] of items whose ids are pairwise distinct, storable (not
    ["__proto__"]) and no keys of the index: the [k]-th item is a key of
    the index at slot [i0 + k], and the row there carries the item, its
    height, and the offset [totalSize] plus the heights of the items
    before it; the rows before slot [i0] and their index entries are as
    before; every old row from slot [i0] on sits [length items] slots
    later, with its model and height and with its offset larger by the
    inserted extent, and is indexed there. *)
Theorem onInsertItems_then_lookup (items : list Item)
    (afterItemId : option string) (m : HeightMap) (i0 : nat) (totalSize : Z) :
  consistent m → indexes m !! unstorable = None →
  NoDup (id <$> items) →
  Forall (λ it, id it ≠ unstorable ∧ indexes m !! id it = None) items →
  insertionPoint afterItemId m = Some (i0, totalSize) →
  let m' := final (onInsertItems items afterItemId m) in
  let d := extent (createViewItem <$> items) in
  (∀ k it, items !! k = Some it →
     indexes m' !! id it = Some (i0 + k)
     ∧ itemAtIndex (i0 + k) m'
       = Some {| model := it;
                 top := totalSize + extent (createViewItem <$> take k items);
                 height := getHeight it |})
  ∧ (∀ k v, k < i0 → heightMap m !! k = Some v →
       itemAtIndex k m' = Some v ∧ indexes m' !! id (model v) = Some k)
  ∧ (∀ k v, i0 ≤ k → heightMap m !! k = Some v →
       (∃ v', itemAtIndex (k + length items) m' = Some v'
              ∧ model v' = model v ∧ top v' = (top v + d)%Z
              ∧ height v' = height v)
       ∧ indexes m' !! id (model v) = Some (k + length items)).
Proof.
  intros Hc _ Hnd Hfresh Hp. cbv zeta.
  assert (Forall (λ it, indexes m !! id it = None) items) as Hfresh'
    by (eapply Forall_impl; [exact Hfresh|]; by intros it [_ ?]).
  destruct (onInsertItems_consistent items afterItemId m Hc Hnd Hfresh')
    as [Hrows' _].
  destruct (onInsertItems_lookup items _ _ _ _ Hp) as (Hlow & Hnew & Hold).
  destruct (insertScan_facts items totalSize i0 0 (indexes m))
    as (_ & _ & _ & _ & Hsd & _).
  rewrite Z.add_0_l, insertScan_extent in Hsd. rewrite Hsd in Hold.
  unfold itemAtIndex. split; [|split].
  - intros k it Hk.
    assert (heightMap (final (onInsertItems items afterItemId m)) !! (i0 + k)
            = Some {| model := it;
                      top := totalSize
                             + extent (createViewItem <$> take k items);
                      height := getHeight it |}) as Hrow.
    { rewrite Hnew by (by eapply lookup_lt_Some).
      rewrite (insertScan_row _ _ _ _ _ k it Hk). do 2 f_equal. lia. }
    split; [|done]. by apply (Hrows' _ _ Hrow).
  - intros k v Hk Hv.
    assert (heightMap (final (onInsertItems items afterItemId m)) !! k
            = Some v) as Hrow by (by rewrite Hlow).
    split; [done|]. by apply (Hrows' _ _ Hrow).
  - intros k v Hk Hv.
    assert (heightMap (final (onInsertItems items afterItemId m))
              !! (k + length items)
            = Some (shift (extent (createViewItem <$> items)) v)) as Hrow
      by (by rewrite Hold, Hv).
    split; [|by apply (Hrows' _ _ Hrow)].
    by exists (shift (extent (createViewItem <$> items)) v).
Qed.

Lemma onInsertItems_then_lookup_witness :
  let items := [item "x" 5; item "y" 7] in
  let m' := final (onInsertItems items (Some "a") scenarioA) in
  let d := extent (createViewItem <$> items) in
  (∀ k it, items !! k = Some it →
     indexes m' !! id it = Some (1 + k)
     ∧ itemAtIndex (1 + k) m'
       = Some {| model := it;
                 top := 10 + extent (createViewItem <$> take k items);
                 height := getHeight it |})
  ∧ (∀ k v, k < 1 → heightMap scenarioA !! k = Some v →
       itemAtIndex k m' = Some v ∧ indexes m' !! id (model v) = Some k)
  ∧ (∀ k v, 1 ≤ k → heightMap scenarioA !! k = Some v →
       (∃ v', itemAtIndex (k + length items) m' = Some v'
              ∧ model v' = model v ∧ top v' = (top v + d)%Z
              ∧ height v' = height v)
       ∧ indexes m' !! id (model v) = Some (k + length items)).
Proof.
  apply (onInsertItems_then_lookup [item "x" 5; item "y" 7] (Some "a")
           scenarioA 1 10).
  - exact scenarioA_consistent.
  - vm_compute. reflexivity.
  - apply (bool_decide_unpack _). vm_compute. exact I.
  - repeat constructor; try discriminate; vm_compute; reflexivity.
  - vm_compute. reflexivity.
Defined.

Section SameRows.
Implicit Types (m : HeightMap).

(** Under I2 the index is determined by the rows. *)
Lemma consistent_indexes m m' :
  consistent m → consistent m' → heightMap m = heightMap m' →
  indexes m = indexes m'.
Proof.
  intros [Hr Hi] [Hr' Hi'] E. apply map_eq. intros x. apply option_eq.
  intros s. split; intros Hx.
  - destruct (Hi _ _ Hx) as (v & Hv & <-). rewrite E in Hv. by apply Hr'.
  - destruct (Hi' _ _ Hx) as (v & Hv & <-). rewrite <- E in Hv. by apply Hr.
Qed.

Lemma consistent_eq m m' :
  consistent m → consistent m' → heightMap m = heightMap m' → m = m'.
Proof.
  intros Hc Hc' E. pose proof (consistent_indexes m m' Hc Hc' E) as E'.
  destruct m, m'. simpl in *. by subst.
Qed.
End SameRows.

(** X10 — Inserting nothing.  With an empty iterator and an anchor that
    is found, [onInsertItems] returns 0 and, in a state that satisfies I2,
    leaves the rows and the index as they were; it still calls
    [onRefreshItem] on every row from the insertion slot on, last row
    first. *)
Theorem onInsertItems_nothing (afterItemId : option string) (m : HeightMap)
    (i0 : nat) (totalSize : Z) :
  consistent m → insertionPoint afterItemId m = Some (i0, totalSize) →
  let r := onInsertItems [] afterItemId m in
  value r = Some 0%Z ∧ final r = m
  ∧ trace r = (λ v, OnRefreshItem v false) <$> reverse (drop i0 (heightMap m)).
Proof.
  intros Hc Hp. cbv zeta.
  pose proof (onInsertItems_rows [] _ _ _ _ Hp) as Hrows.
  cbv zeta in Hrows. cbn [insertScan itemsToInsert ins_sizeDiff app] in Hrows.
  rewrite shift_0_rows, take_drop in Hrows.
  assert (final (onInsertItems [] afterItemId m) = m) as E.
  { apply consistent_eq; [|done|done].
    apply onInsertItems_consistent; [done|constructor|constructor]. }
  split; [|split; [done|]].
  - unfold onInsertItems. by rewrite Hp.
  - rewrite <- E at 2. pose proof (insertionPoint_bound _ _ _ _ Hp) as Hb.
    unfold onInsertItems. rewrite Hp.
    cbn [insertScan itemsToInsert ins_sizeDiff ins_i ins_trace ins_indexes
         app final trace heightMap fmap list_fmap reverse rev_append].
    rewrite shiftSuffix_rows, shift_0_rows, !take_drop. done.
Qed.

Lemma onInsertItems_nothing_witness :
  let r := onInsertItems [] (Some "a") scenarioA in
  value r = Some 0%Z ∧ final r = scenarioA
  ∧ trace r
    = (λ v, OnRefreshItem v false) <$> reverse (drop 1 (heightMap scenarioA)).
Proof.
  apply (onInsertItems_nothing (Some "a") scenarioA 1 10).
  - exact scenarioA_consistent.
  - vm_compute. reflexivity.
Defined.

(** * More on removal *)

Section RemoveMore.
Implicit Types (rows : list IViewItem) (ids pre rest : list string)
  (m : HeightMap).

(** The notifications and the log of a removal that ends normally after a
    run of rows whose heights do not sum to 0. *)
Lemma onRemoveItems_run_trace m pre rest s0 :
  rest = [] ∨ (∃ rest', rest = "" :: rest') →
  (∀ k x, pre !! k = Some x →
     x ≠ "" ∧ indexes m !! x = Some (s0 + k)
     ∧ s0 + k < length (heightMap m)) →
  let run := take (length pre) (drop s0 (heightMap m)) in
  extent run ≠ 0%Z →
  let r := onRemoveItems (pre ++ rest) m in
  console r = [] ∧ unread r = tail rest
  ∧ trace r
    = (OnRemoveItem <$> run)
      ++ ((λ v, OnRefreshItem v false)
            <$> (shift (- extent run)
                   <$> drop (s0 + length pre) (heightMap m))).
Proof.
  intros Hrest Hrun. cbv zeta. intros Hnz.
  assert (NoDup pre) as Hnd
    by (apply (run_NoDup (indexes m) pre s0); intros k x Hk;
        by destruct (Hrun k x Hk) as (_ & ? & _)).
  destruct (run_picked _ _ _ _ Hrun) as (picked & HF & H1 & H2).
  unfold onRemoveItems.
  rewrite (removeScan_app _ _ picked _ _ _ _ _ Hnd HF).
  rewrite (removeScan_end _ _ _ _ _ _ Hrest), H1, H2.
  cbn [rm_emit rm_aborted rm_sizeDiff rm_indexes rm_startIndex rm_i rm_trace
       rm_unread].
  rewrite decide_False by lia.
  destruct pre as [|x pre]; [done|].
  cbn [length]. unfold lastOf. rewrite last_seq.
  cbn [firstOf seq head]. rewrite shiftSuffixRefresh_shiftSuffix.
  cbn [console unread trace fst snd]. unfold splice.
  replace (Z.to_nat (Z.of_nat (s0 + length pre) - Z.of_nat s0 + 1))
    with (S (length pre)) by lia.
  pose proof (Hrun 0 x eq_refl) as (_ & _ & Hlt).
  assert (s0 = length (take s0 (heightMap m))) as Hl0
    by (rewrite length_take; lia).
  rewrite (drop_app_length' _ _ _ Hl0), app_nil_r, Z.sub_0_l. done.
Qed.

Lemma extent_take_drop rows n :
  extent rows = (extent (take n rows) + extent (drop n rows))%Z.
Proof. by rewrite <- extent_app, take_drop. Qed.

Lemma run_bounds m ids s0 :
  consistent m →
  (∀ k x, ids !! k = Some x → x ≠ "" ∧ indexes m !! x = Some (s0 + k)) →
  ∀ k x, ids !! k = Some x →
    x ≠ "" ∧ indexes m !! x = Some (s0 + k) ∧ s0 + k < length (heightMap m).
Proof.
  intros [_ Hidx] Hrun k x Hk. destruct (Hrun k x Hk) as [Hx Hs].
  split; [done|split; [done|]].
  destruct (Hidx _ _ Hs) as (v & Hv & _). by eapply lookup_lt_Some.
Qed.
End RemoveMore.

(** X11 — What a removal takes away.  In a state that satisfies I2, let
    [ids] be non-empty strings that the index sends to the consecutive
    slots [s0, s0 + 1, ...], and let the heights of those rows not sum to
    0.  [onRemoveItems] logs nothing; the rows before [s0] stay, the run
    is gone, and every later row moves [length ids] slots down and by
    minus the removed extent; the ids of the run are no keys of the index
    any more; [onRemoveItem] is called on the rows of the run in input
    order, then [onRefreshItem] on the moved rows in ascending slot
    order; under I1 [getTotalHeight()] drops by the removed extent. *)
Theorem onRemoveItems_accounting (m : HeightMap) (ids : list string)
    (s0 : nat) :
  consistent m →
  (∀ k x, ids !! k = Some x → x ≠ "" ∧ indexes m !! x = Some (s0 + k)) →
  let run := take (length ids) (drop s0 (heightMap m)) in
  extent run ≠ 0%Z →
  let r := onRemoveItems ids m in
  console r = []
  ∧ heightMap (final r)
    = take s0 (heightMap m)
      ++ (shift (- extent run) <$> drop (s0 + length ids) (heightMap m))
  ∧ itemsCount (final r) + length ids = itemsCount m
  ∧ (∀ x, x ∈ ids → indexes (final r) !! x = None)
  ∧ trace r
    = (OnRemoveItem <$> run)
      ++ ((λ v, OnRefreshItem v false)
            <$> (shift (- extent run)
                   <$> drop (s0 + length ids) (heightMap m)))
  ∧ (contiguous (heightMap m) →
     getTotalHeight (final r) = (getTotalHeight m - extent run)%Z).
Proof.
  intros Hc Hrun. cbv zeta. intros Hnz.
  pose proof (run_bounds m ids s0 Hc Hrun) as Hrun'.
  pose proof (onRemoveItems_run m ids [] s0 (or_introl eq_refl) Hrun') as E.
  pose proof (onRemoveItems_run_trace m ids [] s0 (or_introl eq_refl) Hrun' Hnz)
    as (Hlog & _ & Htr).
  rewrite app_nil_r in E, Hlog, Htr. cbv zeta in E.
  rewrite decide_False in E by done.
  pose proof (onRemoveItems_consistent m ids s0 Hc Hrun Hnz) as [_ Hidx'].
  assert (ids ≠ []) as Hne by (by intros ->).
  assert (s0 + length ids ≤ length (heightMap m)) as Hlen.
  { destruct (lookup_lt_is_Some_2 ids (length ids - 1)) as [x Hx].
    - destruct ids; [done|simpl; lia].
    - destruct (Hrun' _ _ Hx) as (_ & _ & ?). lia. }
  assert (heightMap (final (onRemoveItems ids m))
          = take s0 (heightMap m)
            ++ (shift (- extent (take (length ids) (drop s0 (heightMap m))))
                  <$> drop (s0 + length ids) (heightMap m))) as Hrows
    by (by rewrite E).
  split; [done|split; [done|split; [|split; [|split; [done|]]]]].
  - unfold itemsCount. rewrite Hrows.
    rewrite length_app, length_fmap, length_take, length_drop. lia.
  - intros x Hx. apply list_elem_of_lookup in Hx as [j Hj].
    destruct (Hrun' _ _ Hj) as (_ & Hxs & Hjlt).
    destruct (indexes (final (onRemoveItems ids m)) !! x) as [s|] eqn:Hs;
      [|done].
    destruct (Hidx' _ _ Hs) as (v & Hv & Hid). rewrite Hrows in Hv.
    destruct Hc as [Hr _].
    assert (length (take s0 (heightMap m)) = s0) as Hl0
      by (rewrite length_take; lia).
    pose proof (lookup_lt_Some _ _ _ Hj) as Hjn.
    apply lookup_app_Some in Hv as [Hv|[Hge Hv]].
    + apply lookup_take_Some in Hv as [Hv Hlt].
      pose proof (Hr _ _ Hv) as Hk. rewrite Hid, Hxs in Hk.
      injection Hk. lia.
    + rewrite Hl0, list_lookup_fmap, lookup_drop in Hv.
      destruct (heightMap m !! (s0 + length ids + (s - s0))) as [w|] eqn:Hw;
        [|done].
      simpl in Hv. injection Hv as <-.
      pose proof (Hr _ _ Hw) as Hk. simpl in Hid. rewrite Hid, Hxs in Hk.
      injection Hk. lia.
  - intros Hst%contiguous_stacked.
    assert (contiguousRun ids m) as Hcr
      by (exists s0; intros k x Hk; by destruct (Hrun k x Hk)).
    destruct Hc as [_ Hidx].
    rewrite (getTotalHeight_extent _ (onRemoveItems_stacked m ids Hst Hidx Hcr)).
    rewrite (getTotalHeight_extent _ Hst), Hrows.
    rewrite extent_app, extent_shift.
    rewrite (extent_take_drop (heightMap m) s0).
    rewrite (extent_take_drop (drop s0 (heightMap m)) (length ids)).
    rewrite drop_drop. lia.
Qed.

Lemma onRemoveItems_accounting_witness :
  let run := take (length ["a"; "b"]) (drop 0 (heightMap scenarioA)) in
  let r := onRemoveItems ["a"; "b"] scenarioA in
  console r = []
  ∧ heightMap (final r)
    = take 0 (heightMap scenarioA)
      ++ (shift (- extent run)
            <$> drop (0 + length ["a"; "b"]) (heightMap scenarioA))
  ∧ itemsCount (final r) + length ["a"; "b"] = itemsCount scenarioA
  ∧ (∀ x, x ∈ ["a"; "b"] → indexes (final r) !! x = None)
  ∧ trace r
    = (OnRemoveItem <$> run)
      ++ ((λ v, OnRefreshItem v false)
            <$> (shift (- extent run)
                   <$> drop (0 + length ["a"; "b"]) (heightMap scenarioA)))
  ∧ (contiguous (heightMap scenarioA) →
     getTotalHeight (final r) = (getTotalHeight scenarioA - extent run)%Z).
Proof.
  apply (onRemoveItems_accounting scenarioA ["a"; "b"] 0).
  - exact scenarioA_consistent.
  - intros [|[|k]] x Hk; try done; injection Hk as <-;
      (split; [discriminate|vm_compute; reflexivity]).
  - vm_compute. discriminate.
Defined.

(** * More on refresh *)

Section RefreshMore.
Implicit Types (rows : list IViewItem) (idx : gmap string nat)
  (items : list Item) (slots : list nat) (m : HeightMap).

(** An item that is no key of the index makes the scan throw, wherever
    it stands in the input. *)
Lemma refreshScan_absent idx items : ∀ rows c j it,
  it ∈ items → idx !! id it = None →
  rf_completion (refreshScan items idx rows c j) = TypeError.
Proof.
  induction items as [|a items IH]; intros rows c j it Hin Hit;
    [by apply elem_of_nil in Hin|].
  cbn [refreshScan]. destruct (idx !! id a) as [i|] eqn:Ha; [|done].
  apply elem_of_cons in Hin as [->|Hin]; [congruence|].
  destruct (shiftPending i j c rows) as [[[] rows1] evs]; cbn [fst snd];
    [|done].
  destruct (rows1 !! i) as [v|]; [|done].
  cbn [rf_completion]. by apply (IH _ _ _ it).
Qed.

Lemma set_row_same v : set_row v (top v + 0) (height v) = v.
Proof. destruct v. unfold set_row. simpl. f_equal. lia. Qed.

(** A scan in which every item has the height its row already has
    changes no row. *)
Lemma refreshScan_same idx items : ∀ rows j,
  Forall (λ it, ∃ s v, idx !! id it = Some s ∧ rows !! s = Some v
                       ∧ getHeight it = height v) items →
  let scan := refreshScan items idx rows 0 j in
  rf_completion scan = Returns ∧ rf_rows scan = rows
  ∧ rf_cummDiff scan = 0%Z ∧ rf_unread scan = []
  ∧ Forall2 (λ it e, ∃ s v, idx !! id it = Some s ∧ rows !! s = Some v
                            ∧ e = OnRefreshItem v true) items (rf_trace scan).
Proof.
  induction items as [|a items IH]; intros rows j HF.
  - simpl. repeat split; try done; constructor.
  - apply Forall_cons in HF as [(s & v & Hs & Hv & Hh) HF].
    cbn [refreshScan]. rewrite Hs.
    assert (shiftPending s j 0 rows = (Returns, rows, [])) as ->
      by (by destruct j).
    cbn [fst snd]. rewrite Hv, Hh, set_row_same, Z.sub_diag, Z.add_0_r.
    rewrite (list_insert_id _ _ _ Hv).
    destruct (IH rows (Some (S s)) HF) as (H1 & H2 & H3 & H4 & H5).
    cbn [rf_completion rf_rows rf_cummDiff rf_unread rf_trace app].
    repeat split; try done. constructor; [|done]. by exists s, v.
Qed.

Lemma height_shift_rows d rows : height <$> (shift d <$> rows) = height <$> rows.
Proof. rewrite <- list_fmap_compose. by apply list_fmap_ext. Qed.

Lemma height_pending rows c j : height <$> pending rows c j = height <$> rows.
Proof.
  destruct j as [j'|]; [|done]. simpl.
  by rewrite fmap_app, height_shift_rows, <- fmap_app, take_drop.
Qed.

(** The scan over present items in strictly ascending slot order returns
    normally, and the heights after it are the heights before, with the
    height of each item written at its slot. *)
Lemma refreshScan_heights idx items : ∀ slots rows c j,
  Forall2 (λ it s, idx !! id it = Some s ∧ s < length rows) items slots →
  StronglySorted lt slots → Forall (le (cursor j)) slots →
  (j = None → c = 0%Z) → cursor j ≤ length rows →
  let scan := refreshScan items idx rows c j in
  rf_completion scan = Returns
  ∧ (rf_j scan = None → rf_cummDiff scan = 0%Z)
  ∧ cursor (rf_j scan) ≤ length (rf_rows scan)
  ∧ height <$> rf_rows scan
    = foldl (λ hs p, <[p.2 := getHeight p.1]> hs) (height <$> rows)
        (zip items slots).
Proof.
  induction items as [|it items IH];
    intros slots rows c j HF Hsort Hlow Hnone Hj.
  - by apply Forall2_nil_inv_l in HF as ->.
  - apply Forall2_cons_inv_l in HF as (i & slots' & [Hi Hlt] & HF & ->).
    apply StronglySorted_inv in Hsort as [Hsort Hgt].
    apply Forall_cons in Hlow as [Hji _].
    destruct (shiftPending_catch_up rows c j i Hnone Hji ltac:(lia))
      as (rows1 & evs & E & Hpend & Hlen1 & _).
    assert (height <$> rows1 = height <$> rows) as Hh1.
    { rewrite <- (height_pending rows1 c (Some i)), Hpend.
      apply height_pending. }
    cbn [refreshScan]. rewrite Hi, E. cbn [fst snd].
    destruct (lookup_lt_is_Some_2 rows1 i ltac:(lia)) as [v Hv]. rewrite Hv.
    cbn [rf_completion rf_j rf_cummDiff rf_rows zip zip_with foldl fst snd].
    replace (<[i:=getHeight it]> (height <$> rows))
      with (height <$> <[i:=set_row v (top v + c) (getHeight it)]> rows1)
      by (by rewrite list_fmap_insert, Hh1).
    pose proof (IH slots' (<[i:=set_row v (top v + c) (getHeight it)]> rows1)
                  (c + (getHeight it - height v))%Z (Some (S i))) as IH'.
    cbv zeta in IH'. apply IH'; try done.
    + rewrite length_insert, Hlen1. exact HF.
    + simpl. rewrite length_insert. lia.
Qed.

Lemma foldl_insert_notin (ps : list (Item * nat)) : ∀ (hs : list Z) s,
  s ∉ ps.*2 →
  foldl (λ hs p, <[p.2 := getHeight p.1]> hs) hs ps !! s = hs !! s.
Proof.
  induction ps as [|[it i] ps IH]; intros hs s Hs; [done|].
  rewrite fmap_cons in Hs. apply not_elem_of_cons in Hs as [Hne Hs].
  simpl. rewrite IH by done. by apply list_lookup_insert_ne.
Qed.

Lemma foldl_insert_in (ps : list (Item * nat)) : ∀ (hs : list Z) k it s,
  NoDup ps.*2 → ps !! k = Some (it, s) → s < length hs →
  foldl (λ hs p, <[p.2 := getHeight p.1]> hs) hs ps !! s
  = Some (getHeight it).
Proof.
  induction ps as [|[a i] ps IH]; intros hs k it s Hnd Hk Hs; [done|].
  rewrite fmap_cons in Hnd. apply NoDup_cons in Hnd as [Hnotin Hnd].
  destruct k as [|k]; simpl in *.
  - injection Hk as -> ->. rewrite foldl_insert_notin by done.
    by apply list_lookup_insert_eq.
  - apply (IH _ k); [done|done|by rewrite length_insert].
Qed.

Lemma StronglySorted_lt_NoDup slots : StronglySorted lt slots → NoDup slots.
Proof.
  induction 1 as [|s slots Hs IH Hgt]; constructor; [|done].
  intros Hin. rewrite Forall_forall in Hgt. specialize (Hgt _ Hin). lia.
Qed.

(** The heights after a refresh in strictly ascending slot order. *)
Lemma onRefreshItems_heights m items slots :
  Forall2 (λ it s, indexes m !! id it = Some s
                   ∧ s < length (heightMap m)) items slots →
  StronglySorted lt slots →
  let r := onRefreshItems items m in
  value r = Returns
  ∧ height <$> heightMap (final r)
    = foldl (λ hs p, <[p.2 := getHeight p.1]> hs) (height <$> heightMap m)
        (zip items slots).
Proof.
  intros HF Hsort.
  destruct (refreshScan_heights (indexes m) items slots (heightMap m) 0 None)
    as (H1 & H2 & H3 & H4); try done.
  { apply Forall_forall. intros; simpl; lia. }
  { simpl; lia. }
  cbv zeta. unfold onRefreshItems. rewrite H1.
  destruct (shiftPending_final _ _ _ H2 H3) as [evs E].
  rewrite E. cbn [final value heightMap fst snd]. split; [done|].
  by rewrite height_pending.
Qed.
End RefreshMore.

Section RefreshLaws.
Implicit Types (rows : list IViewItem) (items : list Item)
  (slots : list nat) (m : HeightMap).

Lemma onRefreshItems_indexes items m :
  indexes (final (onRefreshItems items m)) = indexes m.
Proof. unfold onRefreshItems. by destruct (rf_completion _). Qed.

Lemma onRefreshItems_same items m :
  Forall (λ it, ∃ s v, indexes m !! id it = Some s
                       ∧ heightMap m !! s = Some v
                       ∧ getHeight it = height v) items →
  let r := onRefreshItems items m in
  value r = Returns ∧ final r = m
  ∧ Forall2 (λ it e, ∃ s v, indexes m !! id it = Some s
                            ∧ heightMap m !! s = Some v
                            ∧ e = OnRefreshItem v true) items (trace r).
Proof.
  intros HF.
  destruct (refreshScan_same (indexes m) items (heightMap m) None HF)
    as (H1 & H2 & H3 & _ & H5).
  cbv zeta. unfold onRefreshItems. rewrite H1, H2, H3.
  assert (∀ j, shiftPending (length (heightMap m)) j 0 (heightMap m)
               = (Returns, heightMap m, [])) as -> by (by intros [j|]).
  cbn [final value trace fst snd]. rewrite app_nil_r.
  split; [done|split; [by destruct m|done]].
Qed.

(** Each listed row ends with the height of its item, the others keep
    theirs. *)
Lemma onRefreshItems_height_at m items slots :
  Forall2 (λ it s, indexes m !! id it = Some s
                   ∧ s < length (heightMap m)) items slots →
  StronglySorted lt slots →
  let rows' := heightMap (final (onRefreshItems items m)) in
  length rows' = length (heightMap m)
  ∧ (∀ k it s, items !! k = Some it → slots !! k = Some s →
       height <$> rows' !! s = Some (getHeight it))
  ∧ (∀ s, s ∉ slots → height <$> rows' !! s = height <$> heightMap m !! s).
Proof.
  intros HF Hsort. cbv zeta.
  destruct (onRefreshItems_heights m items slots HF Hsort) as [_ Hh].
  pose proof (Forall2_length _ _ _ HF) as Hlen.
  assert ((zip items slots).*2 = slots) as Hsnd by (apply snd_zip; lia).
  assert (∀ ps (hs : list Z),
            length (foldl (λ hs p, <[p.2 := getHeight p.1]> hs) hs ps)
            = length hs) as Hfl.
  { clear. induction ps as [|p ps IH]; intros hs; [done|]. simpl.
    by rewrite IH, length_insert. }
  split; [|split].
  - rewrite <- (length_fmap height), Hh, Hfl. by rewrite length_fmap.
  - intros k it s Hk Hs. rewrite <- list_lookup_fmap, Hh.
    apply (foldl_insert_in _ _ k).
    + rewrite Hsnd. by apply StronglySorted_lt_NoDup.
    + apply lookup_zip_with_Some. by exists it, s.
    + rewrite length_fmap.
      destruct (Forall2_lookup_l _ _ _ _ _ HF Hk) as (s' & Hs' & _ & Hlt).
      by assert (s' = s) as <- by congruence.
  - intros s Hs. rewrite <- !list_lookup_fmap, Hh.
    apply foldl_insert_notin. by rewrite Hsnd.
Qed.
End RefreshLaws.

(** X12 — Refresh has no guard for an unknown item: when some item of
    the input is no key of the index, [onRefreshItems] throws (on reading
    [.top] of [undefined]) wherever the item stands in the input; unlike
    insert and remove it logs nothing, and it leaves the index as it was.
    When the unknown item comes first, nothing at all has changed. *)
Theorem onRefreshItems_unknown_throws (items : list Item) (m : HeightMap)
    (it : Item) :
  it ∈ items → indexes m !! id it = None →
  let r := onRefreshItems items m in
  value r = TypeError ∧ console r = [] ∧ indexes (final r) = indexes m
  ∧ (head items = Some it → final r = m ∧ trace r = []).
Proof.
  intros Hin Hit. cbv zeta.
  pose proof (refreshScan_absent (indexes m) items (heightMap m) 0 None it
                Hin Hit) as E.
  split; [|split; [|split]].
  - unfold onRefreshItems. by rewrite E.
  - unfold onRefreshItems. by rewrite E.
  - apply onRefreshItems_indexes.
  - destruct items as [|a items]; [done|]. intros [= ->].
    unfold onRefreshItems. cbn [refreshScan]. rewrite Hit.
    cbn [rf_completion rf_rows rf_trace final trace]. by destruct m.
Qed.

Lemma onRefreshItems_unknown_throws_witness :
  let r := onRefreshItems [item "b" 5; item "q" 1] scenarioA in
  value r = TypeError ∧ console r = []
  ∧ indexes (final r) = indexes scenarioA
  ∧ (head [item "b" 5; item "q" 1] = Some (item "q" 1) →
     final r = scenarioA ∧ trace r = []).
Proof.
  apply (onRefreshItems_unknown_throws [item "b" 5; item "q" 1] scenarioA
           (item "q" 1)).
  - apply elem_of_cons. right. apply elem_of_cons. by left.
  - vm_compute. reflexivity.
Defined.

(** X13 — Refreshing items whose height has not changed: when every item
    of the input is a key of the index and has the height its row
    already has, in any order and with repetitions, [onRefreshItems]
    returns normally and leaves rows and index exactly as they were; it
    still calls [onRefreshItem] with the render hint once per item, in
    input order, and on no other row. *)
Theorem onRefreshItems_unchanged_heights (items : list Item) (m : HeightMap) :
  Forall (λ it, ∃ s v, indexes m !! id it = Some s
                       ∧ heightMap m !! s = Some v
                       ∧ getHeight it = height v) items →
  let r := onRefreshItems items m in
  value r = Returns ∧ final r = m
  ∧ Forall2 (λ it e, ∃ s v, indexes m !! id it = Some s
                            ∧ heightMap m !! s = Some v
                            ∧ e = OnRefreshItem v true) items (trace r).
Proof. apply onRefreshItems_same. Qed.

Lemma onRefreshItems_unchanged_heights_witness :
  let r := onRefreshItems [item "c" 30; item "a" 10; item "c" 30] scenarioA in
  value r = Returns ∧ final r = scenarioA
  ∧ Forall2 (λ it e, ∃ s v, indexes scenarioA !! id it = Some s
                            ∧ heightMap scenarioA !! s = Some v
                            ∧ e = OnRefreshItem v true)
      [item "c" 30; item "a" 10; item "c" 30] (trace r).
Proof.
  apply (onRefreshItems_unchanged_heights
           [item "c" 30; item "a" 10; item "c" 30] scenarioA).
  repeat constructor.
  - exists 2, {| model := item "c" 30; top := 30; height := 30 |}.
    repeat split; vm_compute; reflexivity.
  - exists 0, {| model := item "a" 10; top := 0; height := 10 |}.
    repeat split; vm_compute; reflexivity.
  - exists 2, {| model := item "c" 30; top := 30; height := 30 |}.
    repeat split; vm_compute; reflexivity.
Defined.

(** X14 — What a refresh of several rows computes.  Let the items be keys
    of the index at the strictly ascending slots [slots], each holding a
    row, in a state that satisfies I1.  [onRefreshItems] returns
    normally; afterwards the rows still satisfy I1, carry the same models
    in the same order, the row at the slot of each item has the item's
    height, and every other row has the height it had.  (With I1 this
    fixes every offset.) *)
Theorem onRefreshItems_sets_heights (m : HeightMap) (items : list Item)
    (slots : list nat) :
  Forall2 (λ it s, indexes m !! id it = Some s
                   ∧ s < length (heightMap m)) items slots →
  StronglySorted lt slots → contiguous (heightMap m) →
  let r := onRefreshItems items m in
  let rows' := heightMap (final r) in
  value r = Returns ∧ contiguous rows' ∧ indexes (final r) = indexes m
  ∧ model <$> rows' = model <$> heightMap m
  ∧ (∀ k it s, items !! k = Some it → slots !! k = Some s →
       height <$> rows' !! s = Some (getHeight it))
  ∧ (∀ s, s ∉ slots → height <$> rows' !! s = height <$> heightMap m !! s).
Proof.
  intros HF Hsort Hc%contiguous_stacked. cbv zeta.
  destruct (onRefreshItems_stacked m items slots HF Hsort Hc)
    as (Hv & _ & Hi & Hm & Hst).
  destruct (onRefreshItems_height_at m items slots HF Hsort)
    as (_ & Hat & Hother).
  split; [done|split; [by apply contiguous_stacked|]].
  split; [done|split; [done|split; [exact Hat|exact Hother]]].
Qed.

Lemma onRefreshItems_sets_heights_witness :
  let items := [item "a" 7; item "c" 1] in
  let r := onRefreshItems items scenarioA in
  let rows' := heightMap (final r) in
  value r = Returns ∧ contiguous rows'
  ∧ indexes (final r) = indexes scenarioA
  ∧ model <$> rows' = model <$> heightMap scenarioA
  ∧ (∀ k it s, items !! k = Some it → [0; 2] !! k = Some s →
       height <$> rows' !! s = Some (getHeight it))
  ∧ (∀ s, s ∉ [0; 2] →
       height <$> rows' !! s = height <$> heightMap scenarioA !! s).
Proof.
  apply (onRefreshItems_sets_heights scenarioA [item "a" 7; item "c" 1]
           [0; 2]).
  - repeat constructor; vm_compute; reflexivity.
  - repeat constructor.
  - exact scenarioA_contiguous.
Defined.

(** X15 — Refresh is idempotent: in a state where every index entry points
    at a row, refreshing the same items (keys of the index, strictly
    ascending slots) a second time, their heights unchanged in between,
    changes nothing. *)
Theorem onRefreshItems_idempotent (m : HeightMap) (items : list Item) :
  indexed m → ascendingSlots items m →
  let m1 := final (onRefreshItems items m) in
  value (onRefreshItems items m1) = Returns
  ∧ final (onRefreshItems items m1) = m1.
Proof.
  intros Hidx (slots & HF & Hsort). cbv zeta.
  assert (Forall2 (λ it s, indexes m !! id it = Some s
                           ∧ s < length (heightMap m)) items slots) as HF'.
  { eapply Forall2_impl; [exact HF|]. intros it s Hs. split; [done|].
    destruct (Hidx _ _ Hs) as (v & Hv & _). by eapply lookup_lt_Some. }
  destruct (onRefreshItems_height_at m items slots HF' Hsort)
    as (Hlen & Hat & _).
  destruct (onRefreshItems_same items (final (onRefreshItems items m)))
    as (H1 & H2 & _); [|done].
  apply Forall_lookup. intros k it Hk.
  destruct (Forall2_lookup_l _ _ _ _ _ HF' Hk) as (s & Hs & Hit & Hlt).
  specialize (Hat k it s Hk Hs).
  destruct (heightMap (final (onRefreshItems items m)) !! s) as [v|] eqn:Hv;
    [|done].
  exists s, v. rewrite onRefreshItems_indexes.
  simpl in Hat. injection Hat as Hat. done.
Qed.

Lemma onRefreshItems_idempotent_witness :
  let m1 := final (onRefreshItems [item "a" 7; item "c" 1] scenarioA) in
  value (onRefreshItems [item "a" 7; item "c" 1] m1) = Returns
  ∧ final (onRefreshItems [item "a" 7; item "c" 1] m1) = m1.
Proof.
  apply (onRefreshItems_idempotent scenarioA [item "a" 7; item "c" 1]).
  - apply scenarioA_consistent.
  - exists [0; 2]. split; repeat constructor.
Defined.

(** * onRefreshItemSet: sorting, then refreshing *)

Section SortBySlot.
Implicit Types (x : Item * nat) (pairs : list (Item * nat)) (m : HeightMap).

Lemma insertBySlot_Permutation x pairs : insertBySlot x pairs ≡ₚ x :: pairs.
Proof.
  induction pairs as [|y pairs IH]; [done|]. simpl.
  destruct (decide (x.2 ≤ y.2)); [done|].
  rewrite IH. apply Permutation_swap.
Qed.

Lemma sortBySlot_Permutation pairs : sortBySlot pairs ≡ₚ pairs.
Proof.
  induction pairs as [|x pairs IH]; [done|]. simpl.
  by rewrite insertBySlot_Permutation, IH.
Qed.

Lemma insertBySlot_sorted x pairs :
  StronglySorted (λ a b, a.2 ≤ b.2) pairs →
  StronglySorted (λ a b, a.2 ≤ b.2) (insertBySlot x pairs).
Proof.
  induction 1 as [|y pairs Hs IH Hy]; simpl.
  - repeat constructor.
  - destruct (decide (x.2 ≤ y.2)) as [Hle|Hgt].
    + constructor; [by constructor|]. constructor; [done|].
      eapply Forall_impl; [exact Hy|]. simpl. lia.
    + constructor; [done|]. rewrite insertBySlot_Permutation.
      constructor; [lia|done].
Qed.

Lemma sortBySlot_sorted pairs :
  StronglySorted (λ a b, a.2 ≤ b.2) (sortBySlot pairs).
Proof.
  induction pairs as [|x pairs IH]; simpl; [constructor|].
  by apply insertBySlot_sorted.
Qed.

Lemma sorted_distinct_strict pairs :
  StronglySorted (λ a b, a.2 ≤ b.2) pairs → NoDup pairs.*2 →
  StronglySorted (λ a b, a.2 < b.2) pairs.
Proof.
  induction 1 as [|y pairs Hs IH Hy]; intros Hnd; [constructor|].
  rewrite fmap_cons in Hnd. apply NoDup_cons in Hnd as [Hnotin Hnd].
  constructor; [by apply IH|].
  rewrite Forall_forall in Hy. apply Forall_forall. intros z Hz.
  specialize (Hy z Hz). simpl in Hy.
  destruct (decide (y.2 = z.2)) as [E|Hne]; [|lia].
  destruct Hnotin. rewrite E. apply list_elem_of_fmap. by exists z.
Qed.

(** With pairwise distinct slots the sorted list does not depend on the
    order of the input. *)
Lemma sortBySlot_order_free pairs pairs' :
  pairs ≡ₚ pairs' → NoDup pairs.*2 → sortBySlot pairs = sortBySlot pairs'.
Proof.
  intros Hp Hnd.
  apply (StronglySorted_unique_strong (λ a b, a.2 < b.2)).
  - intros a b _ _. simpl. lia.
  - apply sorted_distinct_strict; [apply sortBySlot_sorted|].
    by rewrite sortBySlot_Permutation.
  - apply sorted_distinct_strict; [apply sortBySlot_sorted|].
    by rewrite sortBySlot_Permutation, <- Hp.
  - by rewrite !sortBySlot_Permutation.
Qed.

Lemma sorted_strict_slots pairs :
  StronglySorted (λ a b, a.2 < b.2) pairs → StronglySorted lt pairs.*2.
Proof.
  induction 1 as [|y pairs Hs IH Hy]; [constructor|].
  rewrite fmap_cons. constructor; [done|]. by apply Forall_fmap.
Qed.

Lemma withSlots_Some (items : list Item) m :
  (∀ it, it ∈ items → is_Some (indexes m !! id it)) →
  withSlots items m
  = Some ((λ it, (it, default 0 (indexes m !! id it))) <$> items).
Proof.
  unfold withSlots. induction items as [|a items IH]; intros Hall; [done|].
  destruct (Hall a ltac:(by left)) as [s Hs].
  cbn [mapM]. rewrite Hs. cbn [fmap option_fmap option_map mbind option_bind].
  rewrite IH by (intros it Hit; apply Hall; by right).
  cbn [mbind option_bind mret option_ret fmap list_fmap default].
  by rewrite Hs.
Qed.

Lemma present_distinct_slots (items : list Item) m :
  indexed m → (∀ it, it ∈ items → is_Some (indexes m !! id it)) →
  NoDup (id <$> items) →
  NoDup ((λ it, (it, default 0 (indexes m !! id it))) <$> items).*2.
Proof.
  intros Hidx Hall Hnd.
  assert (((λ it, (it, default 0 (indexes m !! id it))) <$> items).*2
          = (λ x : string, default 0 (indexes m !! x)) <$> (id <$> items))
    as -> by (by rewrite <- !list_fmap_compose).
  apply NoDup_fmap_2_strong; [|done].
  intros x y Hx Hy E.
  apply list_elem_of_fmap in Hx as (a & -> & Ha).
  apply list_elem_of_fmap in Hy as (b & -> & Hb).
  destruct (Hall a Ha) as [s Hs]. destruct (Hall b Hb) as [s' Hs'].
  rewrite Hs, Hs' in E. simpl in E. subst s'.
  destruct (Hidx _ _ Hs) as (v & Hv & <-).
  destruct (Hidx _ _ Hs') as (v' & Hv' & <-). congruence.
Qed.
End SortBySlot.

(** X16 — [onRefreshItemSet] takes the items in any order.  In a state
    that satisfies I1 and whose index entries point at rows, for items
    with pairwise distinct ids that are all keys of the index, the sort
    by slot puts them in strictly ascending slot order, so the refresh
    returns normally and keeps I1 and the index; and every reordering of
    the input gives the same result. *)
Theorem onRefreshItemSet_any_order (m : HeightMap) (items : list Item) :
  contiguous (heightMap m) → indexed m →
  (∀ it, it ∈ items → is_Some (indexes m !! id it)) →
  NoDup (id <$> items) →
  ∃ r, onRefreshItemSet items m = Some r
       ∧ value r = Returns
       ∧ contiguous (heightMap (final r))
       ∧ indexes (final r) = indexes m
       ∧ ∀ items', items' ≡ₚ items → onRefreshItemSet items' m = Some r.
Proof.
  intros Hc%contiguous_stacked Hidx Hall Hnd.
  set (pairs := (λ it, (it, default 0 (indexes m !! id it))) <$> items).
  pose proof (present_distinct_slots items m Hidx Hall Hnd) as Hslots.
  fold pairs in Hslots.
  assert (StronglySorted lt (sortBySlot pairs).*2) as Hsorted.
  { apply sorted_strict_slots, sorted_distinct_strict;
      [apply sortBySlot_sorted|]. by rewrite sortBySlot_Permutation. }
  assert (Forall2 (λ it s, indexes m !! id it = Some s
                           ∧ s < length (heightMap m))
            (sortBySlot pairs).*1 (sortBySlot pairs).*2) as HF.
  { apply Forall2_fmap, Forall_Forall2_diag.
    rewrite sortBySlot_Permutation. apply Forall_fmap, Forall_forall.
    intros it Hit. simpl. destruct (Hall it Hit) as [s Hs]. rewrite Hs.
    split; [done|]. simpl.
    destruct (Hidx _ _ Hs) as (v & Hv & _). by eapply lookup_lt_Some. }
  destruct (onRefreshItems_stacked m _ _ HF Hsorted Hc)
    as (Hv & _ & Hi & _ & Hst).
  exists (onRefreshItems (sortBySlot pairs).*1 m).
  assert (onRefreshItemSet items m
          = Some (onRefreshItems (sortBySlot pairs).*1 m)) as E
    by (unfold onRefreshItemSet; by rewrite withSlots_Some).
  split; [done|split; [done|split; [by apply contiguous_stacked|]]].
  split; [done|]. intros items' Hp.
  unfold onRefreshItemSet. rewrite withSlots_Some.
  - simpl. do 3 f_equal. apply sortBySlot_order_free.
    + by rewrite Hp.
    + rewrite (fmap_Permutation _ _ _ Hp). exact Hslots.
  - intros it Hit. apply Hall. by rewrite <- Hp.
Qed.

Lemma onRefreshItemSet_any_order_witness :
  ∃ r, onRefreshItemSet [item "c" 1; item "a" 7] scenarioA = Some r
       ∧ value r = Returns
       ∧ contiguous (heightMap (final r))
       ∧ indexes (final r) = indexes scenarioA
       ∧ ∀ items', items' ≡ₚ [item "c" 1; item "a" 7] →
           onRefreshItemSet items' scenarioA = Some r.
Proof.
  apply (onRefreshItemSet_any_order scenarioA [item "c" 1; item "a" 7]).
  - exact scenarioA_contiguous.
  - apply scenarioA_consistent.
  - intros it Hit. apply elem_of_cons in Hit as [->|Hit].
    + by exists 2.
    + apply elem_of_cons in Hit as [->|Hit]; [by exists 0|].
      by apply elem_of_nil in Hit.
  - apply (bool_decide_unpack _). vm_compute. exact I.
Defined.

(** * Disciplined use keeps both invariants *)

Section Disciplined.
Implicit Types (m : HeightMap) (op : Operation) (items : list Item).

Lemma onRemoveItems_nothing m : final (onRemoveItems [] m) = m.
Proof. unfold onRemoveItems. simpl. by destruct m. Qed.

Lemma disciplined_permitted op m : disciplined op m → permitted op m.
Proof.
  destruct op as [items a|ids|items]; simpl; [by intros (_ & _ & ?)| |done].
  intros (s0 & Hrun & _). exists s0. intros k x Hk.
  by destruct (Hrun k x Hk).
Qed.

Lemma perform_stacked op m :
  stacked 0 (heightMap m) → indexed m → permitted op m →
  stacked 0 (heightMap (perform op m)).
Proof.
  intros Hst Hidx Hp. destruct op as [items a|ids|items]; simpl.
  - by apply onInsertItems_stacked.
  - by apply onRemoveItems_stacked.
  - by apply onRefreshItems_keeps.
Qed.

Lemma fresh_storable items m :
  Forall (λ it, id it ≠ unstorable ∧ indexes m !! id it = None) items →
  Forall (λ it, indexes m !! id it = None) items
  ∧ Forall (λ it, id it ≠ unstorable) items.
Proof.
  intros HF. split; (eapply Forall_impl; [exact HF|]); by intros it [? ?].
Qed.

(** Under I2 an id that is no key of the index is the id of no row, and
    an id of no row is no key of the index. *)
Lemma consistent_no_row m (x : string) :
  consistent m → indexes m !! x = None →
  ∀ k v, heightMap m !! k = Some v → id (model v) ≠ x.
Proof. intros [Hr _] Hx k v Hk E. rewrite <- E, (Hr _ _ Hk) in Hx. done. Qed.

Lemma indexed_no_key m (x : string) :
  indexed m → (∀ k v, heightMap m !! k = Some v → id (model v) ≠ x) →
  indexes m !! x = None.
Proof.
  intros Hidx Hno. destruct (indexes m !! x) as [s|] eqn:Hs; [|done].
  destruct (Hidx _ _ Hs) as (v & Hv & Hid). by destruct (Hno _ _ Hv).
Qed.

(** Every row after an insert carries the model of an old row or of an
    inserted item; every row after a remove that of an old row. *)
Lemma onInsertItems_models items afterItemId m k v' :
  heightMap (final (onInsertItems items afterItemId m)) !! k = Some v' →
  (∃ k0 v, heightMap m !! k0 = Some v ∧ model v' = model v)
  ∨ model v' ∈ items.
Proof.
  destruct (insertionPoint afterItemId m) as [[i0 t]|] eqn:Hp.
  2:{ rewrite onInsertItems_failed by done. intros Hk. left. by exists k, v'. }
  rewrite (onInsertItems_rows _ _ _ _ _ Hp).
  destruct (insertScan_facts items t i0 0 (indexes m)) as (_ & Hmodel & _).
  intros Hk. apply lookup_app_Some in Hk as [Hk|[_ Hk]].
  { apply lookup_take_Some in Hk as [Hk _]. left. by exists k, v'. }
  apply lookup_app_Some in Hk as [Hk|[_ Hk]].
  - right. rewrite <- Hmodel. apply list_elem_of_fmap. exists v'.
    split; [done|]. by eapply list_elem_of_lookup_2.
  - left. rewrite list_lookup_fmap, lookup_drop in Hk.
    destruct (heightMap m !! _) as [w|] eqn:Hw; [|done].
    simpl in Hk. injection Hk as <-. by eexists _, w.
Qed.

Lemma onRemoveItems_models m ids k v' :
  indexed m → contiguousRun ids m →
  heightMap (final (onRemoveItems ids m)) !! k = Some v' →
  ∃ k0 v, heightMap m !! k0 = Some v ∧ model v' = model v.
Proof.
  intros Hidx [s0 Hrun].
  destruct (split_falsy ids) as (pre & rest & -> & Hpre & Hrest).
  pose proof (contiguousRun_prefix m pre rest s0 Hidx Hpre Hrun) as Hrun'.
  rewrite (onRemoveItems_run m pre rest s0 Hrest Hrun').
  destruct (decide _) as [_|Hnz]; simpl; intros Hk; [by exists k, v'|].
  apply lookup_app_Some in Hk as [Hk|[_ Hk]].
  - apply lookup_take_Some in Hk as [Hk _]. by exists k, v'.
  - rewrite list_lookup_fmap, lookup_drop in Hk.
    destruct (heightMap m !! _) as [w|] eqn:Hw; [|done].
    simpl in Hk. injection Hk as <-. by eexists _, w.
Qed.

Lemma perform_consistent op m :
  stacked 0 (heightMap m) → consistent m → disciplined op m →
  consistent (perform op m).
Proof.
  intros Hst Hcons Hd. destruct op as [items a|ids|items]; simpl in *.
  - destruct Hd as (Hnd & Hfresh & _).
    apply onInsertItems_consistent; [done|done|].
    by apply fresh_storable.
  - destruct Hd as (s0 & Hrun & [->|Hnz]).
    + by rewrite onRemoveItems_nothing.
    + by apply (onRemoveItems_consistent m ids s0).
  - by apply onRefreshItems_consistent.
Qed.

Lemma perform_no_unstorable op m :
  consistent m → indexes m !! unstorable = None → disciplined op m →
  indexed (perform op m) → indexes (perform op m) !! unstorable = None.
Proof.
  intros Hcons Hx Hd Hidx'.
  pose proof (consistent_no_row m unstorable Hcons Hx) as Hrows.
  destruct op as [items a|ids|items]; simpl in *.
  - destruct Hd as (_ & Hfresh & _).
    destruct (fresh_storable items m Hfresh) as [_ Hst].
    apply indexed_no_key; [done|]. intros k v' Hk.
    destruct (onInsertItems_models _ _ _ _ _ Hk) as [(k0 & v & Hv & E)|Hin].
    + rewrite E. by apply (Hrows k0).
    + rewrite Forall_forall in Hst. by apply Hst.
  - apply indexed_no_key; [done|]. intros k v' Hk.
    destruct (onRemoveItems_models m ids k v') as (k0 & v & Hv & E);
      [apply Hcons| |done|].
    + destruct Hd as (s0 & Hrun & _). exists s0. intros j x Hj.
      by destruct (Hrun j x Hj).
    + rewrite E. by apply (Hrows k0).
  - by rewrite onRefreshItems_indexes.
Qed.
End Disciplined.

(** X17 — One step of disciplined use keeps I1 and I2: from a state that
    satisfies both and whose index has no entry for ["__proto__"], an
    insert of fresh, pairwise distinct, storable ids (none of them
    ["__proto__"]), a remove of a run whose heights do not sum to 0 (or
    of nothing), or a refresh in strictly ascending slot order leads to a
    state that satisfies both, again without an entry for
    ["__proto__"]. *)
Theorem disciplined_keeps_invariants (op : Operation) (m : HeightMap) :
  contiguous (heightMap m) → consistent m →
  indexes m !! unstorable = None → disciplined op m →
  contiguous (heightMap (perform op m)) ∧ consistent (perform op m)
  ∧ indexes (perform op m) !! unstorable = None.
Proof.
  intros Hc%contiguous_stacked Hcons Hx Hd.
  pose proof (perform_consistent op m Hc Hcons Hd) as Hcons'.
  split; [|split; [done|]].
  - apply contiguous_stacked, perform_stacked; try done; [apply Hcons|].
    by apply disciplined_permitted.
  - apply perform_no_unstorable; try done. apply Hcons'.
Qed.

Lemma disciplined_keeps_invariants_witness :
  contiguous (heightMap (perform (Insert [item "x" 5] (Some "a")) scenarioA))
  ∧ consistent (perform (Insert [item "x" 5] (Some "a")) scenarioA)
  ∧ indexes (perform (Insert [item "x" 5] (Some "a")) scenarioA)
      !! unstorable = None.
Proof.
  apply (disciplined_keeps_invariants (Insert [item "x" 5] (Some "a"))
           scenarioA).
  - exact scenarioA_contiguous.
  - exact scenarioA_consistent.
  - vm_compute. reflexivity.
  - split; [|split].
    + apply NoDup_singleton.
    + constructor; [|constructor].
      split; [discriminate|vm_compute; reflexivity].
    + by exists 0.
Defined.

(** X18 — Insert, then remove, where the inserted extent is not 0.  In a
    state that satisfies I2 and whose index has no entry for
    ["__proto__"], inserting items with pairwise distinct, non-empty,
    storable ids (none of them ["__proto__"]) that are no keys of the
    index, and then removing exactly those ids in the same order, gives
    back the state before the insert: the same rows at the same offsets
    and the same index. *)
Theorem insert_then_remove_restores (m : HeightMap) (items : list Item)
    (afterItemId : option string) (d : Z) :
  consistent m → indexes m !! unstorable = None →
  NoDup (id <$> items) →
  Forall (λ it, id it ≠ "" ∧ id it ≠ unstorable
                ∧ indexes m !! id it = None) items →
  value (onInsertItems items afterItemId m) = Some d → d ≠ 0%Z →
  perform (Remove (id <$> items)) (perform (Insert items afterItemId) m) = m.
Proof.
  intros Hc _ Hnd Hfresh Hval Hd.
  apply (insert_remove_round_trip m items afterItemId d); try done.
  eapply Forall_impl; [exact Hfresh|]. by intros it (? & _ & ?).
Qed.

Lemma insert_then_remove_restores_witness :
  perform (Remove (id <$> [item "x" 5; item "y" 0]))
    (perform (Insert [item "x" 5; item "y" 0] (Some "a")) scenarioA)
  = scenarioA.
Proof.
  apply (insert_then_remove_restores scenarioA [item "x" 5; item "y" 0]
           (Some "a") 5).
  - exact scenarioA_consistent.
  - vm_compute. reflexivity.
  - apply (bool_decide_unpack _). vm_compute. exact I.
  - repeat constructor; try discriminate; vm_compute; reflexivity.
  - vm_compute. reflexivity.
  - discriminate.
Defined.

(** * Non-negative heights along the way *)

Section NonnegativeHeights.
Implicit Types (rows : list IViewItem) (items : list Item) (m : HeightMap).

Lemma nonnegative_heights rows :
  Forall (λ h, (0 ≤ h)%Z) (height <$> rows) → nonnegative rows.
Proof.
  intros HF k v Hk. rewrite Forall_lookup in HF. apply (HF k).
  by rewrite list_lookup_fmap, Hk.
Qed.

Lemma insertScan_heights items : ∀ totalSize i sizeDiff idx,
  height <$> itemsToInsert (insertScan items totalSize i sizeDiff idx)
  = getHeight <$> items.
Proof.
  induction items as [|a items IH]; intros totalSize i sizeDiff idx; [done|].
  cbn [insertScan itemsToInsert]. rewrite !fmap_cons. by rewrite IH.
Qed.

Lemma onInsertItems_nonnegative items afterItemId m :
  Forall (λ h, (0 ≤ h)%Z) (height <$> heightMap m) →
  Forall (λ it, (0 ≤ getHeight it)%Z) items →
  Forall (λ h, (0 ≤ h)%Z)
    (height <$> heightMap (final (onInsertItems items afterItemId m))).
Proof.
  intros Hm Hitems.
  destruct (insertionPoint afterItemId m) as [[i0 t]|] eqn:Hp;
    [|by rewrite onInsertItems_failed].
  rewrite (onInsertItems_rows _ _ _ _ _ Hp).
  rewrite !fmap_app, insertScan_heights, height_shift_rows.
  rewrite <- (take_drop i0 (heightMap m)), fmap_app in Hm.
  apply Forall_app in Hm as [Hpre Hsuf].
  apply Forall_app. split; [done|]. apply Forall_app. split; [|done].
  apply Forall_lookup. intros k h Hk. rewrite list_lookup_fmap in Hk.
  destruct (items !! k) as [it|] eqn:Hit; [|done].
  simpl in Hk. injection Hk as <-.
  rewrite Forall_lookup in Hitems. by apply (Hitems k).
Qed.

Lemma onRemoveItems_nonnegative m ids :
  indexed m → contiguousRun ids m →
  Forall (λ h, (0 ≤ h)%Z) (height <$> heightMap m) →
  Forall (λ h, (0 ≤ h)%Z) (height <$> heightMap (final (onRemoveItems ids m))).
Proof.
  intros Hidx [s0 Hrun] Hm.
  destruct (split_falsy ids) as (pre & rest & -> & Hpre & Hrest).
  pose proof (contiguousRun_prefix m pre rest s0 Hidx Hpre Hrun) as Hrun'.
  rewrite (onRemoveItems_run m pre rest s0 Hrest Hrun').
  destruct (decide _) as [_|Hnz]; [done|]. simpl.
  rewrite fmap_app, height_shift_rows.
  rewrite <- (take_drop s0 (heightMap m)), fmap_app in Hm.
  apply Forall_app in Hm as [Hhead Htail].
  rewrite <- (take_drop (length pre) (drop s0 (heightMap m))), fmap_app
    in Htail.
  apply Forall_app in Htail as [_ Htail]. rewrite drop_drop in Htail.
  apply Forall_app. by split.
Qed.

Lemma foldl_insert_Forall (P : Z → Prop) (ps : list (Item * nat)) :
  ∀ hs : list Z,
  Forall P hs → Forall (λ p, P (getHeight p.1)) ps →
  Forall P (foldl (λ hs p, <[p.2 := getHeight p.1]> hs) hs ps).
Proof.
  induction ps as [|p ps IH]; intros hs Hhs Hps; [done|].
  apply Forall_cons in Hps as [Hp Hps]. simpl.
  apply IH; [|done]. by apply Forall_insert.
Qed.

Lemma onRefreshItems_nonnegative m items :
  indexed m → ascendingSlots items m →
  Forall (λ h, (0 ≤ h)%Z) (height <$> heightMap m) →
  Forall (λ it, (0 ≤ getHeight it)%Z) items →
  Forall (λ h, (0 ≤ h)%Z)
    (height <$> heightMap (final (onRefreshItems items m))).
Proof.
  intros Hidx (slots & HF & Hsort) Hm Hitems.
  assert (Forall2 (λ it s, indexes m !! id it = Some s
                           ∧ s < length (heightMap m)) items slots) as HF'.
  { eapply Forall2_impl; [exact HF|]. intros it s Hs. split; [done|].
    destruct (Hidx _ _ Hs) as (v & Hv & _). by eapply lookup_lt_Some. }
  destruct (onRefreshItems_heights m items slots HF' Hsort) as [_ ->].
  apply foldl_insert_Forall; [done|].
  apply Forall_lookup. intros k [it s] Hk.
  apply lookup_zip_with_Some in Hk as (it' & s' & [= -> ->] & Hit & _).
  rewrite Forall_lookup in Hitems. by apply (Hitems k).
Qed.

Lemma reachableNonnegative_reachable m :
  reachableNonnegative m → reachable m.
Proof. induction 1; [constructor|by constructor]. Qed.

Lemma reachableNonnegative_heights m :
  reachableNonnegative m →
  Forall (λ h, (0 ≤ h)%Z) (height <$> heightMap m).
Proof.
  induction 1 as [|op m Hr IH Hp Hh]; [constructor|].
  destruct (reachable_invariant m (reachableNonnegative_reachable m Hr))
    as [_ Hidx].
  destruct op as [items a|ids|items]; simpl in *.
  - by apply onInsertItems_nonnegative.
  - by apply onRemoveItems_nonnegative.
  - by apply onRefreshItems_nonnegative.
Qed.
End NonnegativeHeights.

(** X19 — Position queries on every state the operations produce.  Take
    any state reached from the empty map by permitted operations (insert
    after no anchor or a key, remove of a contiguous run, refresh in
    strictly ascending slot order) whose items have non-negative
    heights.  Its rows satisfy I1 with non-negative heights, so
    [indexAt(p)] returns the one slot whose window holds [p] for
    [0 <= p < getTotalHeight()] and the row count for every other [p];
    this holds even where the index has lost entries to a zero-extent
    removal. *)
Theorem reachable_indexAt (m : HeightMap) (p : Z) :
  reachableNonnegative m →
  contiguous (heightMap m) ∧ nonnegative (heightMap m)
  ∧ ((0 ≤ p < getTotalHeight m)%Z →
     ∃ s v, indexAt p m = Value s ∧ heightMap m !! s = Some v ∧ covers v p
            ∧ ∀ s' v', heightMap m !! s' = Some v' → covers v' p → s' = s)
  ∧ (¬ (0 ≤ p < getTotalHeight m)%Z → indexAt p m = Value (itemsCount m)).
Proof.
  intros Hr.
  assert (contiguous (heightMap m)) as Hc.
  { apply contiguous_stacked, reachable_invariant.
    by apply reachableNonnegative_reachable. }
  pose proof (nonnegative_heights _ (reachableNonnegative_heights m Hr)) as Hn.
  split; [done|split; [done|split]].
  - intros Hp. destruct (indexAt_covered m p Hc Hn Hp) as (s & v & E & Hs & Hv).
    exists s, v. split; [done|split; [done|split; [done|]]].
    intros s' v' Hs' Hv'.
    by apply (ascending_covers_unique (heightMap m) s' s v' v p);
      [apply contiguous_ascending| | | |].
  - intros Hp. apply indexAt_uncovered, outside_uncovered; [done|done|].
    left. lia.
Qed.

Lemma reachableNonnegative_withZeroRow :
  reachableNonnegative (perform (Remove ["z"]) withZeroRow).
Proof.
  apply reachableNonnegative_perform.
  - apply (reachableNonnegative_perform
             (Insert [item "a" 10; item "z" 0; item "b" 20] None) create).
    + apply reachableNonnegative_create.
    + exact I.
    + repeat constructor; discriminate.
  - exists 1. intros [|k] itemId Hk; [|done]. injection Hk as <-.
    vm_compute. reflexivity.
  - exact I.
Qed.

Lemma reachable_indexAt_witness :
  let m := perform (Remove ["z"]) withZeroRow in
  contiguous (heightMap m) ∧ nonnegative (heightMap m)
  ∧ ((0 ≤ 10 < getTotalHeight m)%Z →
     ∃ s v, indexAt 10 m = Value s ∧ heightMap m !! s = Some v ∧ covers v 10
            ∧ ∀ s' v', heightMap m !! s' = Some v' → covers v' 10 → s' = s)
  ∧ (¬ (0 ≤ 10 < getTotalHeight m)%Z → indexAt 10 m = Value (itemsCount m)).
Proof.
  apply (reachable_indexAt (perform (Remove ["z"]) withZeroRow) 10).
  exact reachableNonnegative_withZeroRow.
Defined.

(** * Insertion seen through the queries *)

Section InsertQueries.
Implicit Types (items : list Item) (m : HeightMap).

Lemma insertionPoint_after m (a : string) slot v :
  indexes m !! a = Some slot → heightMap m !! slot = Some v →
  insertionPoint (Some a) m = Some (S slot, (top v + height v)%Z).
Proof. intros Ha Hv. unfold insertionPoint. by rewrite Ha, Hv. Qed.

(** A position is answered by the slot of any row that holds it. *)
Lemma indexAt_unique m p k v :
  contiguous (heightMap m) → nonnegative (heightMap m) →
  heightMap m !! k = Some v → covers v p → indexAt p m = Value k.
Proof.
  intros Hc Hn Hk Hv.
  destruct (indexAt_cases p m) as [(s & w & E & Hs & Hw)|[_ Hnone]].
  - rewrite E. f_equal.
    by apply (ascending_covers_unique (heightMap m) s k w v p);
      [apply contiguous_ascending| | | |].
  - by destruct (Hnone (contiguous_ascending _ Hc Hn) Hn k v Hk).
Qed.
End InsertQueries.

(** X20 — The inserted rows follow their anchor.  In a state that
    satisfies I2, after inserting a non-empty sequence of fresh, pairwise
    distinct items after the key [a], [itemAfter] of the row of [a] is
    the row of the first inserted item, placed where the row of [a]
    ends. *)
Theorem itemAfter_anchor_is_first_inserted (m : HeightMap) (a : string)
    (slot : nat) (v : IViewItem) (it : Item) (rest : list Item) :
  consistent m → NoDup (id <$> it :: rest) →
  Forall (λ x, indexes m !! id x = None) (it :: rest) →
  indexes m !! a = Some slot → heightMap m !! slot = Some v →
  itemAfter v (final (onInsertItems (it :: rest) (Some a) m))
  = Some {| model := it; top := top v + height v; height := getHeight it |}.
Proof.
  intros Hc Hnd Hfresh Ha Hv.
  pose proof (insertionPoint_after m a slot v Ha Hv) as Hp.
  destruct (onInsertItems_consistent (it :: rest) (Some a) m Hc Hnd Hfresh)
    as [Hrows' _].
  destruct (onInsertItems_lookup (it :: rest) _ _ _ _ Hp) as (Hlow & Hnew & _).
  assert (heightMap (final (onInsertItems (it :: rest) (Some a) m)) !! slot
          = Some v) as Hrow by (rewrite Hlow by lia; done).
  unfold itemAfter. rewrite (Hrows' _ _ Hrow). simpl.
  specialize (Hnew 0 ltac:(simpl; lia)). rewrite Nat.add_0_r in Hnew.
  rewrite Hnew, (insertScan_row (it :: rest) _ _ _ _ 0 it eq_refl).
  simpl. do 2 f_equal. lia.
Qed.

Lemma itemAfter_anchor_is_first_inserted_witness :
  itemAfter {| model := item "a" 10; top := 0; height := 10 |}
    (final (onInsertItems [item "x" 5; item "y" 7] (Some "a") scenarioA))
  = Some {| model := item "x" 5; top := 0 + 10; height := 5 |}.
Proof.
  apply (itemAfter_anchor_is_first_inserted scenarioA "a" 0
           {| model := item "a" 10; top := 0; height := 10 |}
           (item "x" 5) [item "y" 7]).
  - exact scenarioA_consistent.
  - apply (bool_decide_unpack _). vm_compute. exact I.
  - repeat constructor; vm_compute; reflexivity.
  - vm_compute. reflexivity.
  - vm_compute. reflexivity.
Defined.

(** X21 — An insert does not disturb the queries above it.  Under I1
    with non-negative heights, after a successful insert at offset
    [totalSize] of items with non-negative heights, [indexAt(p)] answers
    for every [0 <= p < totalSize] the slot it answered before, and for
    [totalSize <= p] inside the old content the old answer for [p] is the
    new answer for [p] moved by the inserted extent, [length items] slots
    later. *)
Theorem onInsertItems_indexAt_frame (items : list Item)
    (afterItemId : option string) (m : HeightMap) (i0 : nat) (totalSize : Z)
    (p : Z) :
  contiguous (heightMap m) → nonnegative (heightMap m) →
  Forall (λ it, (0 ≤ getHeight it)%Z) items →
  insertionPoint afterItemId m = Some (i0, totalSize) →
  let m' := final (onInsertItems items afterItemId m) in
  let d := extent (createViewItem <$> items) in
  ((0 ≤ p < totalSize)%Z → indexAt p m' = indexAt p m)
  ∧ ((totalSize ≤ p < getTotalHeight m)%Z →
     ∃ s, indexAt p m = Value s
          ∧ indexAt (p + d) m' = Value (s + length items)).
Proof.
  intros Hc Hn Hitems Hp. cbv zeta.
  pose proof (proj1 (contiguous_stacked _) Hc) as Hst.
  pose proof (insertionPoint_offset _ _ _ _ Hst Hp) as Ht.
  pose proof (insertionPoint_bound _ _ _ _ Hp) as Hb.
  destruct (onInsertItems_lookup items _ _ _ _ Hp) as (Hlow & _ & Hold).
  destruct (insertScan_facts items totalSize i0 0 (indexes m))
    as (_ & _ & _ & _ & Hsd & _).
  rewrite Z.add_0_l, insertScan_extent in Hsd. rewrite Hsd in Hold.
  assert (contiguous (heightMap (final (onInsertItems items afterItemId m))))
    as Hc' by (by apply contiguous_stacked, onInsertItems_stacked).
  assert (nonnegative (heightMap (final (onInsertItems items afterItemId m))))
    as Hn'.
  { apply nonnegative_heights, onInsertItems_nonnegative; [|done].
    apply Forall_lookup. intros k h Hk. rewrite list_lookup_fmap in Hk.
    destruct (heightMap m !! k) as [v|] eqn:Hv; [|done].
    simpl in Hk. injection Hk as <-. by apply (Hn k v). }
  assert (∀ k v, heightMap m !! k = Some v → covers v p →
            ((p < totalSize)%Z → k < i0) ∧ ((totalSize ≤ p)%Z → i0 ≤ k))
    as Hside.
  { intros k v Hk Hv. unfold covers in Hv.
    pose proof (stacked_lookup _ _ _ _ Hst Hk) as Htop.
    pose proof (extent_take_S _ _ _ Hk) as HS.
    split; intros Hpt.
    - destruct (decide (k < i0)) as [|Hge]; [done|].
      pose proof (extent_take_le (heightMap m) i0 k Hn ltac:(lia)). lia.
    - destruct (decide (i0 ≤ k)) as [|Hlt]; [done|].
      pose proof (extent_take_le (heightMap m) (S k) i0 Hn ltac:(lia)). lia. }
  split.
  - intros Hpt.
    assert (0 ≤ extent (take i0 (heightMap m))
            ≤ getTotalHeight m)%Z as Hbound.
    { rewrite (getTotalHeight_extent _ Hst).
      pose proof (extent_nonneg _ (nonnegative_take _ i0 Hn)).
      pose proof (extent_take_le (heightMap m) i0 (length (heightMap m)) Hn Hb)
        as Hle.
      rewrite (take_ge (heightMap m) (length (heightMap m))) in Hle by lia.
      lia. }
    destruct (indexAt_covered m p Hc Hn ltac:(lia)) as (s & v & E & Hs & Hv).
    rewrite E. apply (indexAt_unique _ p s v Hc' Hn'); [|done].
    rewrite Hlow; [done|]. apply (Hside s v Hs Hv). lia.
  - intros Hpt.
    destruct (indexAt_covered m p Hc Hn) as (s & v & E & Hs & Hv).
    { pose proof (extent_nonneg _ (nonnegative_take _ i0 Hn)). lia. }
    exists s. split; [done|].
    apply (indexAt_unique _ _ _ (shift (extent (createViewItem <$> items)) v)
             Hc' Hn').
    + rewrite Hold by (apply (Hside s v Hs Hv); lia). by rewrite Hs.
    + unfold covers, shift in *. simpl. lia.
Qed.

Lemma onInsertItems_indexAt_frame_witness :
  let items := [item "x" 5; item "y" 7] in
  let m' := final (onInsertItems items (Some "a") scenarioA) in
  let d := extent (createViewItem <$> items) in
  ((0 ≤ 4 < 10)%Z → indexAt 4 m' = indexAt 4 scenarioA)
  ∧ ((10 ≤ 4 < getTotalHeight scenarioA)%Z →
     ∃ s, indexAt 4 scenarioA = Value s
          ∧ indexAt (4 + d) m' = Value (s + length items)).
Proof.
  apply (onInsertItems_indexAt_frame [item "x" 5; item "y" 7] (Some "a")
           scenarioA 1 10 4).
  - exact scenarioA_contiguous.
  - exact scenarioA_nonnegative.
  - repeat constructor; discriminate.
  - vm_compute. reflexivity.
Defined.

(** X22 — What [indexAfter] counts.  Under I1 with non-negative heights,
    for [0 <= p < getTotalHeight()] the slot [indexAfter(p)] is the one
    after the row that holds [p], it does not exceed the row count, and
    it separates the rows that start at or before [p] from those that
    start after [p]. *)
Theorem indexAfter_separates (m : HeightMap) (p : Z) :
  contiguous (heightMap m) → nonnegative (heightMap m) →
  (0 ≤ p < getTotalHeight m)%Z →
  ∃ s, indexAt p m = Value s ∧ indexAfter p m = Value (S s)
       ∧ S s ≤ itemsCount m
       ∧ ∀ k v, heightMap m !! k = Some v → (k < S s ↔ (top v ≤ p)%Z).
Proof.
  intros Hc Hn Hp.
  pose proof (contiguous_ascending _ Hc Hn) as Ha.
  destruct (indexAt_covered m p Hc Hn Hp) as (s & w & E & Hs & Hw).
  pose proof (lookup_lt_Some _ _ _ Hs) as Hlt.
  exists s. split; [done|]. split; [|split; [unfold itemsCount; lia|]].
  - unfold indexAfter. rewrite E. f_equal. lia.
  - intros k v Hk. unfold covers in Hw. split.
    + intros Hks. destruct (decide (k = s)) as [->|Hne].
      * assert (v = w) as -> by congruence. lia.
      * pose proof (Ha k s v w ltac:(lia) Hk Hs). pose proof (Hn _ _ Hk). lia.
    + intros Htop. destruct (decide (k < S s)) as [|Hge]; [done|].
      pose proof (Ha s k w v ltac:(lia) Hs Hk). lia.
Qed.

Lemma indexAfter_separates_witness :
  ∃ s, indexAt 35 scenarioA = Value s ∧ indexAfter 35 scenarioA = Value (S s)
       ∧ S s ≤ itemsCount scenarioA
       ∧ ∀ k v, heightMap scenarioA !! k = Some v →
           (k < S s ↔ (top v ≤ 35)%Z).
Proof.
  apply (indexAfter_separates scenarioA 35).
  - exact scenarioA_contiguous.
  - exact scenarioA_nonnegative.
  - change (getTotalHeight scenarioA) with 60%Z. lia.
Defined.
